(** * near-access-key-plugin: a shallow embedding of [src/index.ts]

    The plugin keeps one function-call access key in [localStorage] under a
    fixed key, decides per transaction whether that key may sign it
    ([shouldUseAccessKey]), signs locally when it may
    ([signTransactionLocally]) and otherwise hands the request to the host's
    continuation [next].

    Modelling conventions.
    - A JavaScript string is the list of its UTF-16 code units ([list N]).
    - [localStorage] is a finite map from strings to strings; its
      operations do not throw (no quota, no security error).
    - [JSON.parse], [JSON.stringify], [BigInt], [Array.prototype.includes]
      and [String.prototype.includes] are written out after ECMA-262.
    - A call either returns or throws ([completion]); an [async] function
      whose promise rejects is a computation that throws, and [await] is a
      call that returns when the promise has settled.
    - One call runs at a time: no other task touches the storage between
      the steps of a call.
    - The collaborators (the wallet, the RPC account of near-js, the random
      key generator, the host's [next]) are opaque: their answers are
      functions of the history of events so far, and every theorem
      quantifies over them. The constructors of near-js ([JsonRpcProvider],
      [KeyPairSigner], [Account]) and [actionCreators.functionCall] only
      build values. *)

From Stdlib Require Import ZArith NArith Ascii String Lia.
From stdpp Require Import gmap strings list.

Set Warnings "-register-all".

(* ===================================================================== *)
(** * Part I: definitions *)
(* ===================================================================== *)

(** ** Strings and completions *)

Abbreviation jsstring := (list N).

(** The code units of an ASCII literal. *)
Definition str (s : string) : list N := map N_of_ascii (list_ascii_of_string s).

Definition chr (a : ascii) : N := N_of_ascii a.

Arguments str : simpl never.
Arguments chr : simpl never.

(** The double quote, code unit 0x22. *)
Definition QUOTE : N := 34%N.
(** The backslash, code unit 0x5C. *)
Definition BACKSLASH : N := 92%N.

Fixpoint string_eqb (a b : list N) : bool :=
  match a, b with
  | [], [] => true
  | x :: a', y :: b' => (x =? y)%N && string_eqb a' b'
  | _, _ => false
  end.

(** The errors the plugin can see. [Rejected] is a collaborator's rejection
    with an opaque reason. *)
Inductive JsError :=
| SyntaxError
| TypeError
| Error (message : list N)
| Rejected (reason : list N).

Inductive completion (A : Type) :=
| Return (value : A)
| Throw (error : JsError).
Arguments Return {A} value.
Arguments Throw {A} error.

Definition cbind {A B} (c : completion A) (k : A -> completion B) : completion B :=
  match c with
  | Return a => k a
  | Throw e => Throw e
  end.

(** ** JSON values *)

Inductive json :=
| JNull
| JBool (b : bool)
| JNumber (literal : list N)
| JString (s : list N)
| JArray (elements : list json)
| JObject (members : list (list N * json)).

(** ** [JSON.parse] *)

Definition is_ws (c : N) : bool :=
  (c =? 32)%N || (c =? 9)%N || (c =? 10)%N || (c =? 13)%N.

Fixpoint skip_ws (s : list N) : list N :=
  match s with
  | c :: r => if is_ws c then skip_ws r else s
  | [] => []
  end.

Definition is_digit (c : N) : bool := (48 <=? c)%N && (c <=? 57)%N.

Definition hex_value (c : N) : option N :=
  if is_digit c then Some (c - 48)%N
  else if (97 <=? c)%N && (c <=? 102)%N then Some (c - 87)%N
  else if (65 <=? c)%N && (c <=? 70)%N then Some (c - 55)%N
  else None.

Definition hex4 (h1 h2 h3 h4 : N) : option N :=
  match hex_value h1, hex_value h2, hex_value h3, hex_value h4 with
  | Some a, Some b, Some c, Some d => Some (4096 * a + 256 * b + 16 * c + d)%N
  | _, _, _, _ => None
  end.

(** The single-character escapes of a JSON string. *)
Definition unescape (e : N) : option N :=
  if (e =? QUOTE)%N then Some QUOTE
  else if (e =? BACKSLASH)%N then Some BACKSLASH
  else if (e =? chr "/")%N then Some (chr "/")
  else if (e =? chr "b")%N then Some 8%N
  else if (e =? chr "f")%N then Some 12%N
  else if (e =? chr "n")%N then Some 10%N
  else if (e =? chr "r")%N then Some 13%N
  else if (e =? chr "t")%N then Some 9%N
  else None.

(** The characters of a string after its opening quote, up to and
    including the closing quote. *)
Fixpoint parse_string_body (s : list N) : option (list N * list N) :=
  match s with
  | [] => None
  | c :: r =>
      if (c =? QUOTE)%N then Some ([], r)
      else if (c =? BACKSLASH)%N then
        match r with
        | [] => None
        | e :: r1 =>
            if (e =? chr "u")%N then
              match r1 with
              | h1 :: h2 :: h3 :: h4 :: r2 =>
                  match hex4 h1 h2 h3 h4 with
                  | Some u =>
                      match parse_string_body r2 with
                      | Some (t, rest) => Some (u :: t, rest)
                      | None => None
                      end
                  | None => None
                  end
              | _ => None
              end
            else
              match unescape e with
              | Some u =>
                  match parse_string_body r1 with
                  | Some (t, rest) => Some (u :: t, rest)
                  | None => None
                  end
              | None => None
              end
        end
      else if (c <? 32)%N then None
      else
        match parse_string_body r with
        | Some (t, rest) => Some (c :: t, rest)
        | None => None
        end
  end.

Fixpoint span_digits (s : list N) : list N * list N :=
  match s with
  | c :: r =>
      if is_digit c then let (ds, rest) := span_digits r in (c :: ds, rest)
      else ([], s)
  | [] => ([], [])
  end.

Definition parse_int (s : list N) : option (list N * list N) :=
  match s with
  | c :: r =>
      if (c =? chr "0")%N then Some ([c], r)
      else if is_digit c then let (ds, rest) := span_digits r in Some (c :: ds, rest)
      else None
  | [] => None
  end.

Definition parse_frac (s : list N) : option (list N * list N) :=
  match s with
  | c :: r =>
      if (c =? chr ".")%N then
        match span_digits r with
        | ([], _) => None
        | (ds, rest) => Some (c :: ds, rest)
        end
      else Some ([], s)
  | [] => Some ([], [])
  end.

Definition parse_sign (s : list N) : list N * list N :=
  match s with
  | d :: r => if (d =? chr "+")%N || (d =? chr "-")%N then ([d], r) else ([], s)
  | [] => ([], [])
  end.

Definition parse_exp (s : list N) : option (list N * list N) :=
  match s with
  | c :: r =>
      if (c =? chr "e")%N || (c =? chr "E")%N then
        let (sign, r1) := parse_sign r in
        match span_digits r1 with
        | ([], _) => None
        | (ds, rest) => Some (c :: sign ++ ds, rest)
        end
      else Some ([], s)
  | [] => Some ([], [])
  end.

(** A JSON number; the model keeps its literal text. *)
Definition parse_number (s : list N) : option (list N * list N) :=
  let (minus, r0) :=
    match s with
    | c :: r => if (c =? chr "-")%N then ([c], r) else ([], s)
    | [] => ([], [])
    end in
  match parse_int r0 with
  | Some (i, r1) =>
      match parse_frac r1 with
      | Some (f, r2) =>
          match parse_exp r2 with
          | Some (e, r3) => Some (minus ++ i ++ f ++ e, r3)
          | None => None
          end
      | None => None
      end
  | None => None
  end.

Fixpoint expect_chars (p s : list N) : option (list N) :=
  match p, s with
  | [], _ => Some s
  | x :: p', y :: s' => if (x =? y)%N then expect_chars p' s' else None
  | _ :: _, [] => None
  end.

Inductive parsed (A : Type) :=
| Parsed (value : A) (rest : list N)
| Invalid
| OutOfFuel.
Arguments Parsed {A} value rest.
Arguments Invalid {A}.
Arguments OutOfFuel {A}.

Fixpoint parse_value (fuel : nat) (s : list N) {struct fuel} : parsed json :=
  match fuel with
  | O => OutOfFuel
  | S fuel' =>
      match skip_ws s with
      | [] => Invalid
      | c :: r =>
          if (c =? chr "{")%N then
            match skip_ws r with
            | c' :: r' =>
                if (c' =? chr "}")%N then Parsed (JObject []) r'
                else parse_members fuel' (c' :: r') []
            | [] => Invalid
            end
          else if (c =? chr "[")%N then
            match skip_ws r with
            | c' :: r' =>
                if (c' =? chr "]")%N then Parsed (JArray []) r'
                else parse_elements fuel' (c' :: r') []
            | [] => Invalid
            end
          else if (c =? QUOTE)%N then
            match parse_string_body r with
            | Some (t, rest) => Parsed (JString t) rest
            | None => Invalid
            end
          else if (c =? chr "t")%N then
            match expect_chars (str "rue") r with
            | Some rest => Parsed (JBool true) rest
            | None => Invalid
            end
          else if (c =? chr "f")%N then
            match expect_chars (str "alse") r with
            | Some rest => Parsed (JBool false) rest
            | None => Invalid
            end
          else if (c =? chr "n")%N then
            match expect_chars (str "ull") r with
            | Some rest => Parsed JNull rest
            | None => Invalid
            end
          else
            match parse_number (c :: r) with
            | Some (lit, rest) => Parsed (JNumber lit) rest
            | None => Invalid
            end
      end
  end
with parse_elements (fuel : nat) (s : list N) (acc : list json) {struct fuel} : parsed json :=
  match fuel with
  | O => OutOfFuel
  | S fuel' =>
      match parse_value fuel' s with
      | Parsed v r =>
          match skip_ws r with
          | c :: r' =>
              if (c =? chr ",")%N then parse_elements fuel' r' (acc ++ [v])
              else if (c =? chr "]")%N then Parsed (JArray (acc ++ [v])) r'
              else Invalid
          | [] => Invalid
          end
      | Invalid => Invalid
      | OutOfFuel => OutOfFuel
      end
  end
with parse_members (fuel : nat) (s : list N) (acc : list (list N * json)) {struct fuel} : parsed json :=
  match fuel with
  | O => OutOfFuel
  | S fuel' =>
      match skip_ws s with
      | c :: r =>
          if (c =? QUOTE)%N then
            match parse_string_body r with
            | Some (k, r1) =>
                match skip_ws r1 with
                | c1 :: r2 =>
                    if (c1 =? chr ":")%N then
                      match parse_value fuel' r2 with
                      | Parsed v r3 =>
                          match skip_ws r3 with
                          | c3 :: r4 =>
                              if (c3 =? chr ",")%N then parse_members fuel' r4 (acc ++ [(k, v)])
                              else if (c3 =? chr "}")%N then Parsed (JObject (acc ++ [(k, v)])) r4
                              else Invalid
                          | [] => Invalid
                          end
                      | Invalid => Invalid
                      | OutOfFuel => OutOfFuel
                      end
                    else Invalid
                | [] => Invalid
                end
            | None => Invalid
            end
          else Invalid
      | [] => Invalid
      end
  end.

(** [JSON.parse(text)]: one value, blanks around it, nothing else. Every
    recursive call of the parser is paid by a character, so twice the length
    of the text is fuel enough ([parse_value_fuel] below). *)
Definition JSON_parse (text : list N) : completion json :=
  match parse_value (2 * length text + 1) text with
  | Parsed v r =>
      match skip_ws r with
      | [] => Return v
      | _ :: _ => Throw SyntaxError
      end
  | Invalid => Throw SyntaxError
  | OutOfFuel => Throw SyntaxError
  end.

(** ** [JSON.stringify] *)

Definition hex_digit (d : N) : N := if (d <? 10)%N then (48 + d)%N else (87 + d)%N.

(** [\uXXXX] with lower-case hexadecimal digits. *)
Definition unicode_escape (c : N) : list N :=
  [BACKSLASH; chr "u";
   hex_digit ((c / 4096) mod 16); hex_digit ((c / 256) mod 16);
   hex_digit ((c / 16) mod 16); hex_digit (c mod 16)].

Definition is_high_surrogate (c : N) : bool := (55296 <=? c)%N && (c <=? 56319)%N.
Definition is_low_surrogate (c : N) : bool := (56320 <=? c)%N && (c <=? 57343)%N.

(** One code unit that is no surrogate, as QuoteJSONString writes it. *)
Definition quote_code_unit (c : N) : list N :=
  if (c =? 8)%N then str "\b"
  else if (c =? 9)%N then str "\t"
  else if (c =? 10)%N then str "\n"
  else if (c =? 12)%N then str "\f"
  else if (c =? 13)%N then str "\r"
  else if (c =? QUOTE)%N then [BACKSLASH; QUOTE]
  else if (c =? BACKSLASH)%N then [BACKSLASH; BACKSLASH]
  else if (c <? 32)%N then unicode_escape c
  else [c].

(** The characters between the quotes: a surrogate pair is kept, a lone
    surrogate is escaped. *)
Fixpoint quote_chars (s : list N) : list N :=
  match s with
  | [] => []
  | c :: r =>
      if is_high_surrogate c then
        match r with
        | d :: r' =>
            if is_low_surrogate d then c :: d :: quote_chars r'
            else unicode_escape c ++ quote_chars r
        | [] => unicode_escape c
        end
      else if is_low_surrogate c then unicode_escape c ++ quote_chars r
      else quote_code_unit c ++ quote_chars r
  end.

Definition QuoteJSONString (s : list N) : list N := QUOTE :: quote_chars s ++ [QUOTE].

Fixpoint join (sep : list N) (parts : list (list N)) : list N :=
  match parts with
  | [] => []
  | [p] => p
  | p :: rest => p ++ sep ++ join sep rest
  end.

(** [JSON.stringify(v)] without indentation. The plugin only serialises
    strings, arrays of strings and an object of those; a number is written
    as the literal the model holds for it. *)
Fixpoint JSON_stringify (v : json) : list N :=
  match v with
  | JNull => str "null"
  | JBool true => str "true"
  | JBool false => str "false"
  | JNumber lit => lit
  | JString s => QuoteJSONString s
  | JArray l => chr "[" :: join [chr ","] (map JSON_stringify l) ++ [chr "]"]
  | JObject ms =>
      chr "{" ::
      join [chr ","] (map (fun m => QuoteJSONString (fst m) ++ chr ":" :: JSON_stringify (snd m)) ms)
      ++ [chr "}"]
  end.

(** An object literal whose property values may be [undefined] ([None]):
    [JSON.stringify] leaves such properties out. *)
Definition object_literal (props : list (list N * option json)) : json :=
  JObject (omap (fun p => match snd p with Some v => Some (fst p, v) | None => None end) props).

(** ** Reading parsed values *)

(** The value of the last member named [name]: [JSON.parse] lets a later
    duplicate overwrite an earlier one. *)
Fixpoint lookup_member (name : list N) (ms : list (list N * json)) : option json :=
  match ms with
  | [] => None
  | (k, v) :: rest =>
      match lookup_member name rest with
      | Some v' => Some v'
      | None => if string_eqb k name then Some v else None
      end
  end.

(** [v.name] for a property name that no built-in prototype defines (the
    plugin reads [contractId], [allowedMethods], [privateKey], [accountId]):
    [None] is [undefined]; reading a property of [null] throws. *)
Definition get_prop (v : json) (name : list N) : completion (option json) :=
  match v with
  | JNull => Throw TypeError
  | JObject ms => Return (lookup_member name ms)
  | _ => Return None
  end.

(** [a === b] for a string [a] and any value [b]. *)
Definition strict_equal_string (a : list N) (b : option json) : bool :=
  match b with
  | Some (JString s) => string_eqb a s
  | _ => false
  end.

Fixpoint is_prefix (p s : list N) : bool :=
  match p, s with
  | [], _ => true
  | x :: p', y :: s' => (x =? y)%N && is_prefix p' s'
  | _ :: _, [] => false
  end.

(** [s.includes(p)] on strings: [p] occurs in [s]. *)
Fixpoint string_includes (s p : list N) : bool :=
  is_prefix p s ||
  match s with
  | [] => false
  | _ :: s' => string_includes s' p
  end.

(** [ToString(x)] of a string or [undefined]. *)
Definition ToString (x : option (list N)) : list N :=
  match x with
  | Some s => s
  | None => str "undefined"
  end.

(** SameValueZero between an argument that is a string or [undefined] and
    an element of a parsed array (which is never [undefined]). *)
Definition same_value_zero (x : option (list N)) (v : json) : bool :=
  match x, v with
  | Some s, JString t => string_eqb s t
  | _, _ => false
  end.

(** [target.includes(x)]: [Array.prototype.includes] on an array,
    [String.prototype.includes] on a string; on [undefined] or [null] the
    property read throws, on anything else [includes] is not a function. *)
Definition includes (target : option json) (x : option (list N)) : completion bool :=
  match target with
  | Some (JArray l) => Return (existsb (same_value_zero x) l)
  | Some (JString s) => Return (string_includes s (ToString x))
  | _ => Throw TypeError
  end.

(** ** [BigInt(string)] *)

(** WhiteSpace and LineTerminator code points (StrWhiteSpaceChar). *)
Definition is_StrWhiteSpaceChar (c : N) : bool :=
  ((9 <=? c)%N && (c <=? 13)%N) || (c =? 32)%N || (c =? 160)%N || (c =? 5760)%N
  || ((8192 <=? c)%N && (c <=? 8202)%N) || (c =? 8232)%N || (c =? 8233)%N
  || (c =? 8239)%N || (c =? 8287)%N || (c =? 12288)%N || (c =? 65279)%N.

Fixpoint trim_start (s : list N) : list N :=
  match s with
  | c :: r => if is_StrWhiteSpaceChar c then trim_start r else s
  | [] => []
  end.

Definition trim (s : list N) : list N := rev (trim_start (rev (trim_start s))).

Definition digit_in_base (base : N) (c : N) : option Z :=
  match hex_value c with
  | Some d => if (d <? base)%N then Some (Z.of_N d) else None
  | None => None
  end.

Fixpoint digits_value (base : N) (s : list N) (acc : Z) : option Z :=
  match s with
  | [] => Some acc
  | c :: r =>
      match digit_in_base base c with
      | Some d => digits_value base r (acc * Z.of_N base + d)%Z
      | None => None
      end
  end.

(** At least one digit, all of them digits of the base. *)
Definition integer_in_base (base : N) (s : list N) : option Z :=
  match s with
  | [] => None
  | _ :: _ => digits_value base s 0%Z
  end.

(** StringToBigInt: blanks are trimmed, the empty string is zero, a sign is
    allowed before decimal digits only, and [0x], [0o], [0b] select the base. *)
Definition StringToBigInt (s : list N) : option Z :=
  match trim s with
  | [] => Some 0%Z
  | c :: r =>
      if (c =? chr "+")%N then integer_in_base 10 r
      else if (c =? chr "-")%N then Z.opp <$> integer_in_base 10 r
      else
        match c, r with
        | 48%N, p :: r' =>
            if (p =? chr "x")%N || (p =? chr "X")%N then integer_in_base 16 r'
            else if (p =? chr "o")%N || (p =? chr "O")%N then integer_in_base 8 r'
            else if (p =? chr "b")%N || (p =? chr "B")%N then integer_in_base 2 r'
            else integer_in_base 10 (c :: r)
        | _, _ => integer_in_base 10 (c :: r)
        end
  end.

Definition BigInt (s : list N) : completion Z :=
  match StringToBigInt s with
  | Some z => Return z
  | None => Throw SyntaxError
  end.

(** ** The data of the plugin *)

(** [interface AccessKeyData]: the record kept under the storage key. *)
Record AccessKeyData := {
  key_accountId : list N;
  key_privateKey : list N;
  key_contractId : list N;
  key_allowedMethods : list (list N);
  key_allowance : list N
}.

Record FunctionCallParams := {
  methodName : option (list N);
  args : json;
  gas : option (list N);
  deposit : option (list N)
}.

Record FunctionCallPermission := {
  permission_receiverId : list N;
  permission_methodNames : list (list N);
  permission_allowance : list N
}.

Record AddKeyParams := {
  publicKey : list N;
  permission : FunctionCallPermission
}.

(** The action kinds of a NEAR transaction other than the two the plugin
    looks into. *)
Inductive OtherActionType :=
| CreateAccount | DeployContract | Transfer | Stake | DeleteKey | DeleteAccount.

(** An action is a union tagged by its [type] field. *)
Inductive Action :=
| FunctionCall (params : FunctionCallParams)
| AddKey (params : AddKeyParams)
| OtherAction (type : OtherActionType) (params : json).

(** [action.type] *)
Definition action_type (a : Action) : list N :=
  match a with
  | FunctionCall _ => str "FunctionCall"
  | AddKey _ => str "AddKey"
  | OtherAction CreateAccount _ => str "CreateAccount"
  | OtherAction DeployContract _ => str "DeployContract"
  | OtherAction Transfer _ => str "Transfer"
  | OtherAction Stake _ => str "Stake"
  | OtherAction DeleteKey _ => str "DeleteKey"
  | OtherAction DeleteAccount _ => str "DeleteAccount"
  end.

Record SignAndSendTransactionParams := {
  network : option (list N);
  receiverId : list N;
  actions : list Action
}.

Record SignAndSendTransactionsParams := {
  transactions : list SignAndSendTransactionParams
}.

(** What [createAccessKey] hands to the wallet: its [receiverId] is the
    first account's id, or [undefined]. *)
Record WalletTransaction := {
  wallet_receiverId : option (list N);
  wallet_actions : list Action
}.

Record WalletAccount := { accountId : list N }.

(** A key pair of near-js, as far as the plugin reads it: [toString()] (the
    secret key) and [getPublicKey().toString()]. *)
Record KeyPair := {
  KeyPair_toString : list N;
  KeyPair_getPublicKey : list N
}.

Definition FinalExecutionOutcome := json.

(** What [actionCreators.functionCall] builds. *)
Record NativeFunctionCall := {
  native_methodName : option (list N);
  native_args : json;
  native_gas : Z;
  native_deposit : Z
}.

(** One local submission: the [Account] built from the stored key and the
    transaction given to its [signAndSendTransaction]. *)
Record LocalTransaction := {
  local_rpcUrl : list N;
  local_accountId : option json;
  local_keyPair : KeyPair;
  local_receiverId : list N;
  local_actions : list NativeFunctionCall
}.

(** ** The world: storage, and the history of effects *)

Inductive Event :=
| EvGetItem (key : list N)
| EvSetItem (key value : list N)
| EvRemoveItem (key : list N)
| EvConsoleLog (message : list N)
| EvGetAccounts (settled : completion (list WalletAccount))
| EvFromRandom (keyPair : KeyPair)
| EvWalletSignAndSend (request : WalletTransaction) (settled : completion FinalExecutionOutcome)
| EvAccountSignAndSend (request : LocalTransaction) (settled : completion FinalExecutionOutcome).

Record World := {
  localStorage : gmap (list N) (list N);
  log : list Event
}.

(** The wallet handed to [createAccessKey]. *)
Record NearWalletBase := {
  manifest_id : list N;
  getAccounts : list Event -> completion (list WalletAccount);
  wallet_signAndSendTransaction :
    list Event -> WalletTransaction -> completion FinalExecutionOutcome
}.

(** The near-js packages the plugin imports. *)
Record NearJs := {
  KeyPair_fromRandom : list Event -> KeyPair;
  KeyPair_fromString : option json -> completion KeyPair;
  Account_signAndSendTransaction :
    list Event -> LocalTransaction -> completion FinalExecutionOutcome
}.

(** A computation: it may read and change the world, and returns or throws. *)
Definition M (A : Type) : Type := World -> World * completion A.

Definition ret {A} (a : A) : M A := fun w => (w, Return a).

Definition throw {A} (e : JsError) : M A := fun w => (w, Throw e).

Definition bind {A B} (m : M A) (k : A -> M B) : M B :=
  fun w =>
    match m w with
    | (w', Return a) => k a w'
    | (w', Throw e) => (w', Throw e)
    end.

Definition lift {A} (c : completion A) : M A := fun w => (w, c).

Notation "x <- m ;; k" := (bind m (fun x => k))
  (at level 100, m at next level, right associativity).

Definition emit (ev : Event) (w : World) : World :=
  {| localStorage := localStorage w; log := log w ++ [ev] |}.

Definition getItem (key : list N) : M (option (list N)) :=
  fun w => (emit (EvGetItem key) w, Return (localStorage w !! key)).

Definition setItem (key value : list N) : M unit :=
  fun w =>
    (emit (EvSetItem key value)
       {| localStorage := <[key := value]> (localStorage w); log := log w |},
     Return tt).

Definition removeItem (key : list N) : M unit :=
  fun w =>
    (emit (EvRemoveItem key)
       {| localStorage := delete key (localStorage w); log := log w |},
     Return tt).

Definition console_log (message : list N) : M unit :=
  fun w => (emit (EvConsoleLog message) w, Return tt).

(** [await collaborator(...)]: the answer is the collaborator's, given the
    history; the event records the call with its settlement. *)
Definition await {A} (answer : list Event -> completion A)
    (record : completion A -> Event) : M A :=
  fun w => let r := answer (log w) in (emit (record r) w, r).

(** ** The plugin *)

Definition STORAGE_KEY : list N := str "access_key::plugin".

(** [!x] for [x] a string or [null]. *)
Definition falsy (x : option (list N)) : bool :=
  match x with
  | None => true
  | Some [] => true
  | Some (_ :: _) => false
  end.

(** [x || d] for [x] a string or [undefined]. *)
Definition or_default (x : option (list N)) (d : list N) : list N :=
  match x with
  | Some (c :: s) => c :: s
  | _ => d
  end.

(** [JSON.parse(localStorage.getItem(STORAGE_KEY)!)]: the [!] is erased at
    run time, and [JSON.parse(null)] parses the text [null]. *)
Definition parse_item (item : option (list N)) : completion json :=
  JSON_parse (match item with Some text => text | None => str "null" end).

(** The loop of [shouldUseAccessKey] over [tx.actions]. *)
Fixpoint check_actions (key : json) (acts : list Action) : completion bool :=
  match acts with
  | [] => Return true
  | action :: rest =>
      match action with
      | FunctionCall params =>
          cbind (get_prop key (str "allowedMethods")) (fun allowedMethods =>
          cbind (includes allowedMethods (methodName params)) (fun found =>
          if negb found then Return false else check_actions key rest))
      | _ => Return false
      end
  end.

Definition shouldUseAccessKey (tx : SignAndSendTransactionParams) : M bool :=
  item <- getItem STORAGE_KEY ;;
  if falsy item then ret false
  else
    item' <- getItem STORAGE_KEY ;;
    key <- lift (parse_item item') ;;
    contractId <- lift (get_prop key (str "contractId")) ;;
    if negb (strict_equal_string (receiverId tx) contractId) then ret false
    else lift (check_actions key (actions tx)).

(** [actionCreators.functionCall(methodName, args, gas, deposit)] of
    near-js. Before it builds the action it encodes [args], and for that
    reads [args.byteLength]: on [null] this throws a [TypeError]; every
    other JSON value has the property lookup succeed. The action keeps
    [args] as given, the encoding being a function of it. *)
Definition functionCall (methodName : option (list N)) (args : json) (gas deposit : Z)
    : completion NativeFunctionCall :=
  match args with
  | JNull => Throw TypeError
  | _ => Return {| native_methodName := methodName; native_args := args;
                   native_gas := gas; native_deposit := deposit |}
  end.

(** The callback of [tx.actions.map] in [signTransactionLocally]: the
    arguments of the call are evaluated first, left to right, then
    [functionCall] runs. *)
Definition native_action (action : Action) : completion NativeFunctionCall :=
  match action with
  | FunctionCall params =>
      cbind (BigInt (or_default (gas params) (str "30000000000000"))) (fun g =>
      cbind (BigInt (or_default (deposit params) (str "0"))) (fun d =>
      functionCall (methodName params) (args params) g d))
  | _ => Throw (Error (str "Unsupported action type: " ++ action_type action))
  end.

(** [Array.prototype.map] with a callback that may throw. *)
Fixpoint map_actions (acts : list Action) : completion (list NativeFunctionCall) :=
  match acts with
  | [] => Return []
  | a :: rest =>
      cbind (native_action a) (fun n =>
      cbind (map_actions rest) (fun ns => Return (n :: ns)))
  end.

Definition rpcUrl_of (net : option (list N)) : list N :=
  match net with
  | Some n =>
      if string_eqb n (str "mainnet") then str "https://rpc.fastnear.com"
      else str "https://test.rpc.fastnear.com"
  | None => str "https://test.rpc.fastnear.com"
  end.

Definition signTransactionLocally (lib : NearJs) (tx : SignAndSendTransactionParams)
    : M FinalExecutionOutcome :=
  item <- getItem STORAGE_KEY ;;
  keyData <- lift (parse_item item) ;;
  let rpcUrl := rpcUrl_of (network tx) in
  privateKey <- lift (get_prop keyData (str "privateKey")) ;;
  keyPair <- lift (KeyPair_fromString lib privateKey) ;;
  accountId <- lift (get_prop keyData (str "accountId")) ;;
  acts <- lift (map_actions (actions tx)) ;;
  let request :=
    {| local_rpcUrl := rpcUrl; local_accountId := accountId; local_keyPair := keyPair;
       local_receiverId := receiverId tx; local_actions := acts |} in
  result <- await (fun h => Account_signAndSendTransaction lib h request)
                  (EvAccountSignAndSend request) ;;
  ret result.

(** [AccessKeyPlugin.signOut(params, next)]; [next] is an optional argument. *)
Definition signOut (next : option (M unit)) : M unit :=
  _ <- removeItem STORAGE_KEY ;;
  match next with
  | Some next => next
  | None => throw TypeError
  end.

Definition signAndSendTransaction (lib : NearJs) (params : SignAndSendTransactionParams)
    (next : M FinalExecutionOutcome) : M FinalExecutionOutcome :=
  use <- shouldUseAccessKey params ;;
  if use then signTransactionLocally lib params else next.

(** [array.every(f)]: stops at the first [false]. *)
Fixpoint every {A} (f : A -> M bool) (l : list A) : M bool :=
  match l with
  | [] => ret true
  | x :: rest => ok <- f x ;; if ok then every f rest else ret false
  end.

(** The [for (const tx of params.transactions)] loop with its [results]. *)
Fixpoint sign_each (lib : NearJs) (txs : list SignAndSendTransactionParams)
    (results : list FinalExecutionOutcome) : M (list FinalExecutionOutcome) :=
  match txs with
  | [] => ret results
  | tx :: rest =>
      result <- signTransactionLocally lib tx ;;
      sign_each lib rest (results ++ [result])
  end.

Definition signAndSendTransactions (lib : NearJs) (params : SignAndSendTransactionsParams)
    (next : M (list FinalExecutionOutcome)) : M (list FinalExecutionOutcome) :=
  allCanUseAccessKey <- every shouldUseAccessKey (transactions params) ;;
  if allCanUseAccessKey then sign_each lib (transactions params) []
  else next.

(** [KeyPair.fromRandom("ed25519")]: the key is the library's choice. *)
Definition fromRandom (lib : NearJs) : M KeyPair :=
  fun w => let kp := KeyPair_fromRandom lib (log w) in (emit (EvFromRandom kp) w, Return kp).

Record CreateAccessKeyParams := {
  wallet : NearWalletBase;
  contractId : list N;
  methodNames : option (list (list N));
  allowance : option (list N)
}.

Definition DEFAULT_ALLOWANCE : list N := str "250000000000000000000000".

(** [walletAccounts[0]?.accountId] *)
Definition first_accountId (walletAccounts : list WalletAccount) : option (list N) :=
  match walletAccounts with
  | a :: _ => Some (accountId a)
  | [] => None
  end.

(** The transaction [createAccessKey] asks the wallet to sign. *)
Definition add_key_transaction (owner : option (list N)) (newPublicKey contract : list N)
    (methods : option (list (list N))) (allowed : list N) : WalletTransaction :=
  {| wallet_receiverId := owner;
     wallet_actions :=
       [AddKey {| publicKey := newPublicKey;
                  permission :=
                    {| permission_receiverId := contract;
                       permission_methodNames := match methods with Some l => l | None => [] end;
                       permission_allowance := allowed |} |}] |}.

(** The object literal given to [JSON.stringify] in [createAccessKey]. *)
Definition access_key_record (owner : option (list N)) (privateKey contract : list N)
    (methods : option (list (list N))) (allowed : list N) : json :=
  object_literal
    [(str "accountId", JString <$> owner);
     (str "privateKey", Some (JString privateKey));
     (str "contractId", Some (JString contract));
     (str "allowedMethods", (fun l => JArray (map JString l)) <$> methods);
     (str "allowance", Some (JString (or_default (Some allowed) DEFAULT_ALLOWANCE)))].

Definition createAccessKey (lib : NearJs) (params : CreateAccessKeyParams)
    : M FinalExecutionOutcome :=
  let allowance := or_default (allowance params) DEFAULT_ALLOWANCE in
  walletAccounts <- await (getAccounts (wallet params)) EvGetAccounts ;;
  _ <- console_log (manifest_id (wallet params)) ;;
  let accountId := first_accountId walletAccounts in
  keyPair <- fromRandom lib ;;
  let newPublicKey := KeyPair_getPublicKey keyPair in
  let privateKey := KeyPair_toString keyPair in
  let request :=
    add_key_transaction accountId newPublicKey (contractId params) (methodNames params)
      allowance in
  result <- await (fun h => wallet_signAndSendTransaction (wallet params) h request)
                  (EvWalletSignAndSend request) ;;
  _ <- setItem STORAGE_KEY
         (JSON_stringify
            (access_key_record accountId privateKey (contractId params) (methodNames params)
               allowance)) ;;
  ret result.

(** ** Vocabulary of the statements *)

(** The world after more events, storage untouched. *)
Definition emits (evs : list Event) (w : World) : World :=
  {| localStorage := localStorage w; log := log w ++ evs |}.

(** The events of a run from [w] to [w']. *)
Definition events_since (w w' : World) : list Event := drop (length (log w)) (log w').

(** The local submissions among some events, oldest first. *)
Fixpoint submissions (evs : list Event)
    : list (LocalTransaction * completion FinalExecutionOutcome) :=
  match evs with
  | [] => []
  | EvAccountSignAndSend request settled :: rest => (request, settled) :: submissions rest
  | _ :: rest => submissions rest
  end.

Definition is_read (ev : Event) : bool :=
  match ev with
  | EvGetItem _ => true
  | _ => false
  end.

(** A parsed value read as an [AccessKeyData]: every field present and of
    its declared type. *)
Definition as_string (v : option json) : option (list N) :=
  match v with
  | Some (JString s) => Some s
  | _ => None
  end.

Fixpoint as_strings (l : list json) : option (list (list N)) :=
  match l with
  | [] => Some []
  | JString s :: rest => cons s <$> as_strings rest
  | _ :: _ => None
  end.

Definition as_string_array (v : option json) : option (list (list N)) :=
  match v with
  | Some (JArray l) => as_strings l
  | _ => None
  end.

Definition read_AccessKeyData (v : json) : option AccessKeyData :=
  match v with
  | JObject ms =>
      a ← as_string (lookup_member (str "accountId") ms);
      p ← as_string (lookup_member (str "privateKey") ms);
      c ← as_string (lookup_member (str "contractId") ms);
      m ← as_string_array (lookup_member (str "allowedMethods") ms);
      l ← as_string (lookup_member (str "allowance") ms);
      Some {| key_accountId := a; key_privateKey := p; key_contractId := c;
              key_allowedMethods := m; key_allowance := l |}
  | _ => None
  end.

(** The storage slot holds a text that parses to the credential [C]. *)
Definition holds_credential (w : World) (C : AccessKeyData) : Prop :=
  exists text v,
    localStorage w !! STORAGE_KEY = Some text /\ JSON_parse text = Return v
    /\ read_AccessKeyData v = Some C.

(** The scope of [C] covers [R]. *)
Definition in_scope (C : AccessKeyData) (R : SignAndSendTransactionParams) : Prop :=
  receiverId R = key_contractId C /\
  Forall (fun a => exists p m, a = FunctionCall p /\ methodName p = Some m
                               /\ In m (key_allowedMethods C)) (actions R).

Definition is_FunctionCall (a : Action) : Prop := exists p, a = FunctionCall p.

(** What [shouldUseAccessKey] answers, read off the storage slot. *)
Definition verdict (w : World) (tx : SignAndSendTransactionParams) : completion bool :=
  snd (shouldUseAccessKey tx w).

(** [shouldUseAccessKey] after its reads: what it does with the text found
    under the storage key. *)
Definition check_key (text : list N) (tx : SignAndSendTransactionParams) : completion bool :=
  cbind (JSON_parse text) (fun key =>
  cbind (get_prop key (str "contractId")) (fun contractId =>
  if negb (strict_equal_string (receiverId tx) contractId) then Return false
  else check_actions key (actions tx))).

(** The JSON record a credential is written as. *)
Definition json_of_AccessKeyData (C : AccessKeyData) : json :=
  JObject
    [(str "accountId", JString (key_accountId C));
     (str "privateKey", JString (key_privateKey C));
     (str "contractId", JString (key_contractId C));
     (str "allowedMethods", JArray (map JString (key_allowedMethods C)));
     (str "allowance", JString (key_allowance C))].

(** Values free of numbers: all [createAccessKey] ever serialises. *)
Fixpoint number_free (v : json) : bool :=
  match v with
  | JNumber _ => false
  | JArray l => forallb number_free l
  | JObject ms => forallb (fun m => number_free (snd m)) ms
  | _ => true
  end.

(** What a serialised value starts with. *)
Definition opens_value (c : N) : bool :=
  (c =? chr "n")%N || (c =? chr "t")%N || (c =? chr "f")%N || (c =? QUOTE)%N
  || (c =? chr "[")%N || (c =? chr "{")%N.

Definition continue_string (c : N) (r : list N) : option (list N * list N) :=
  match parse_string_body r with
  | Some (t, rest) => Some (c :: t, rest)
  | None => None
  end.

Definition member_text (m : list N * json) : list N :=
  QuoteJSONString (fst m) ++ chr ":" :: JSON_stringify (snd m).

(** [v], serialised and followed by anything, parses back to [v]. *)
Definition reparses (v : json) : Prop :=
  forall rest, exists f, parse_value f (JSON_stringify v ++ rest) = Parsed v rest.

(** What [signTransactionLocally] has built when it submits: the request
    made from the stored item, or the error that stops it before. *)
Definition local_request (lib : NearJs) (item : option (list N))
    (tx : SignAndSendTransactionParams) : completion LocalTransaction :=
  cbind (parse_item item) (fun keyData =>
  cbind (get_prop keyData (str "privateKey")) (fun privateKey =>
  cbind (KeyPair_fromString lib privateKey) (fun keyPair =>
  cbind (get_prop keyData (str "accountId")) (fun accountId =>
  cbind (map_actions (actions tx)) (fun acts =>
  Return {| local_rpcUrl := rpcUrl_of (network tx); local_accountId := accountId;
            local_keyPair := keyPair; local_receiverId := receiverId tx;
            local_actions := acts |}))))).

(** The events of one local signing that succeeded. *)
Definition signed_events (d : LocalTransaction * FinalExecutionOutcome) : list Event :=
  [EvGetItem STORAGE_KEY; EvAccountSignAndSend (fst d) (Return (snd d))].

(** Every local submission among [evs] settled as the network answers the
    history [h] followed by the events before it: when a submission starts,
    the earlier ones have settled. *)
Fixpoint answered (lib : NearJs) (h : list Event) (evs : list Event) : Prop :=
  match evs with
  | [] => True
  | ev :: rest =>
      match ev with
      | EvAccountSignAndSend request settled =>
          settled = Account_signAndSendTransaction lib h request
      | _ => True
      end
      /\ answered lib (h ++ [ev]) rest
  end.

(** The text [createAccessKey] writes under the storage key. *)
Definition stored_text (owner : option (list N)) (keyPair : KeyPair)
    (params : CreateAccessKeyParams) : list N :=
  JSON_stringify
    (access_key_record owner (KeyPair_toString keyPair) (contractId params)
       (methodNames params) (or_default (allowance params) DEFAULT_ALLOWANCE)).

(** Induction over [json], through the lists it nests. *)
Section json_induction.
Variable P : json -> Prop.
Hypothesis HNull : P JNull.
Hypothesis HBool : forall b, P (JBool b).
Hypothesis HNumber : forall lit, P (JNumber lit).
Hypothesis HString : forall s, P (JString s).
Hypothesis HArray : forall l, Forall P l -> P (JArray l).
Hypothesis HObject : forall ms, Forall (fun m => P (snd m)) ms -> P (JObject ms).

Fixpoint json_induction (v : json) : P v :=
  match v with
  | JNull => HNull
  | JBool b => HBool b
  | JNumber lit => HNumber lit
  | JString s => HString s
  | JArray l =>
      HArray l ((fix go (l : list json) : Forall P l :=
                   match l with
                   | [] => List.Forall_nil P
                   | x :: l0 => List.Forall_cons P x l0 (json_induction x) (go l0)
                   end) l)
  | JObject ms =>
      HObject ms ((fix go (ms : list (list N * json)) : Forall (fun m => P (snd m)) ms :=
                     match ms with
                     | [] => List.Forall_nil _
                     | m :: ms0 => List.Forall_cons _ m ms0 (json_induction (snd m)) (go ms0)
                     end) ms)
  end.
End json_induction.

(** ** Concrete inputs *)

Definition example_credential : AccessKeyData :=
  {| key_accountId := str "alice.near"; key_privateKey := str "ed25519:SECRET";
     key_contractId := str "app.near"; key_allowedMethods := [str "vote"];
     key_allowance := DEFAULT_ALLOWANCE |}.

Definition example_text : list N := JSON_stringify (json_of_AccessKeyData example_credential).

Definition empty_world : World := {| localStorage := ∅; log := [] |}.

(** The credential of the specification's examples is stored. *)
Definition app_world : World :=
  {| localStorage := {[ STORAGE_KEY := example_text ]}; log := [] |}.

(** The stored text cut after thirty code units. *)
Definition truncated_text : list N := take 30 example_text.

Definition truncated_world : World :=
  {| localStorage := {[ STORAGE_KEY := truncated_text ]}; log := [] |}.

Definition call (contract method : string) : SignAndSendTransactionParams :=
  {| network := None; receiverId := str contract;
     actions := [FunctionCall {| methodName := Some (str method); args := JObject [];
                                 gas := None; deposit := None |}] |}.

Definition vote_request : SignAndSendTransactionParams := call "app.near" "vote".
Definition comment_request : SignAndSendTransactionParams := call "app.near" "comment".
Definition other_request : SignAndSendTransactionParams := call "other.near" "vote".

(** A library whose network accepts every submission. *)
Definition example_lib : NearJs :=
  {| KeyPair_fromRandom := fun _ =>
       {| KeyPair_toString := str "ed25519:SECRET"; KeyPair_getPublicKey := str "ed25519:PUBLIC" |};
     KeyPair_fromString := fun v =>
       match v with
       | Some (JString s) => Return {| KeyPair_toString := s; KeyPair_getPublicKey := str "ed25519:PUBLIC" |}
       | _ => Throw (Error (str "Unknown key"))
       end;
     Account_signAndSendTransaction := fun h request =>
       Return (JString (local_receiverId request)) |}.

(** A library whose network rejects the second submission it sees. *)
Definition flaky_lib : NearJs :=
  {| KeyPair_fromRandom := KeyPair_fromRandom example_lib;
     KeyPair_fromString := KeyPair_fromString example_lib;
     Account_signAndSendTransaction := fun h request =>
       match submissions h with
       | [_] => Throw (Rejected (str "network"))
       | _ => Return (JString (local_receiverId request))
       end |}.

Definition example_wallet : NearWalletBase :=
  {| manifest_id := str "wallet";
     getAccounts := fun _ => Return [{| accountId := str "alice.near" |}];
     wallet_signAndSendTransaction := fun _ _ => Return JNull |}.

(** A wallet whose user declines the registration. *)
Definition declining_wallet : NearWalletBase :=
  {| manifest_id := str "wallet";
     getAccounts := fun _ => Return [{| accountId := str "alice.near" |}];
     wallet_signAndSendTransaction := fun _ _ => Throw (Rejected (str "declined")) |}.

(** A wallet with no account. *)
Definition empty_wallet : NearWalletBase :=
  {| manifest_id := str "wallet";
     getAccounts := fun _ => Return [];
     wallet_signAndSendTransaction := fun _ _ => Return JNull |}.

Definition example_params (w : NearWalletBase) (a : option (list N)) : CreateAccessKeyParams :=
  {| wallet := w; contractId := str "app.near"; methodNames := Some [str "vote"];
     allowance := a |}.


(** The host's fallback: it answers [fallback], or a list of one. *)
Definition example_next : M FinalExecutionOutcome := ret (JString (str "fallback")).
Definition example_next_batch : M (list FinalExecutionOutcome) :=
  ret [JString (str "fallback")].

Definition example_batch : list SignAndSendTransactionParams :=
  [vote_request; vote_request; vote_request].

(** ** Further vocabulary and inputs *)

(** The two RPC endpoints of [signTransactionLocally]. *)
Definition MAINNET_RPC : list N := str "https://rpc.fastnear.com".
Definition TESTNET_RPC : list N := str "https://test.rpc.fastnear.com".

(** An amount string [BigInt] refuses. *)
Definition bad_amount (p : FunctionCallParams) : Prop :=
  StringToBigInt (or_default (gas p) (str "30000000000000")) = None
  \/ StringToBigInt (or_default (deposit p) (str "0")) = None.

(** An action the translation accepts: a [FunctionCall] whose amounts
    [BigInt] accepts and whose [args] is not [null]. *)
Definition translatable (a : Action) : Prop :=
  exists p, a = FunctionCall p /\ ~ bad_amount p /\ args p <> JNull.

(** The translation of one action, as [actionCreators.functionCall] builds it. *)
Definition translates (a : Action) (n : NativeFunctionCall) : Prop :=
  exists p, a = FunctionCall p
    /\ args p <> JNull
    /\ native_methodName n = methodName p /\ native_args n = args p
    /\ BigInt (or_default (gas p) (str "30000000000000")) = Return (native_gas n)
    /\ BigInt (or_default (deposit p) (str "0")) = Return (native_deposit n).

(** A [vote] on [app.near] over mainnet, with the given amounts. *)
Definition call_with (gas' deposit' : option (list N)) : SignAndSendTransactionParams :=
  {| network := Some (str "mainnet"); receiverId := str "app.near";
     actions := [FunctionCall {| methodName := Some (str "vote"); args := JObject [];
                                 gas := gas'; deposit := deposit' |}] |}.

(** A request whose gas is not an integer. *)
Definition fractional_gas_request : SignAndSendTransactionParams :=
  call_with (Some (str "1.5")) None.

(** Two calls of [vote]: the first with [args] [null], the second with a
    gas that is not an integer. *)
Definition null_args_request : SignAndSendTransactionParams :=
  {| network := None; receiverId := str "app.near";
     actions := [FunctionCall {| methodName := Some (str "vote"); args := JNull;
                                 gas := None; deposit := None |};
                 FunctionCall {| methodName := Some (str "vote"); args := JObject [];
                                 gas := Some (str "1.5"); deposit := None |}] |}.

(** A wallet that is not connected. *)
Definition locked_wallet : NearWalletBase :=
  {| manifest_id := str "wallet";
     getAccounts := fun _ => Throw (Rejected (str "locked"));
     wallet_signAndSendTransaction := fun _ _ => Return JNull |}.

(** A world whose slot holds the text [v] is written as. *)
Definition world_storing (v : json) : World :=
  {| localStorage := {[ STORAGE_KEY := JSON_stringify v ]}; log := [] |}.

(** A record whose [allowedMethods] is one string. *)
Definition string_scope_record : json :=
  JObject [(str "contractId", JString (str "app.near"));
           (str "allowedMethods", JString (str "devote,comment"))].

(* ===================================================================== *)
(** * Part II: theorems *)
(* ===================================================================== *)

(** ** The parser: termination and fuel *)


Lemma skip_ws_length s : length (skip_ws s) <= length s.
Proof. induction s as [|c s IH]; simpl; [lia|]. destruct (is_ws c); simpl; lia. Qed.

Lemma parse_string_body_shorter s : forall t r,
  parse_string_body s = Some (t, r) -> length r < length s.
Proof.
  induction s as [s IH] using (induction_ltof1 _ (@length N)). unfold ltof in IH.
  intros t r H.
  destruct s as [|c s]; [discriminate|]. cbn [parse_string_body] in H.
  repeat case_match; simplify_eq; cbn [length] in *; try lia;
    match goal with
    | H : parse_string_body ?x = Some _ |- _ => apply IH in H; cbn [length] in *; lia
    end.
Qed.

Lemma span_digits_length s ds r : span_digits s = (ds, r) -> length r <= length s.
Proof.
  revert ds r. induction s as [|c s IH]; intros ds r H; cbn [span_digits] in H.
  - simplify_eq. simpl. lia.
  - destruct (is_digit c); [|simplify_eq; lia].
    destruct (span_digits s) as [ds' r'] eqn:E. simplify_eq.
    specialize (IH _ _ eq_refl). cbn [length]. lia.
Qed.

Lemma parse_int_shorter s i r : parse_int s = Some (i, r) -> length r < length s.
Proof.
  unfold parse_int. intros H. repeat case_match; simplify_eq; cbn [length]; try lia.
  match goal with H : span_digits _ = _ |- _ => apply span_digits_length in H end. lia.
Qed.

Lemma parse_frac_length s f r : parse_frac s = Some (f, r) -> length r <= length s.
Proof.
  unfold parse_frac. intros H. repeat case_match; simplify_eq; cbn [length]; try lia;
  match goal with H : span_digits _ = _ |- _ => apply span_digits_length in H end; cbn [length] in *; lia.
Qed.

Lemma parse_sign_length s g r : parse_sign s = (g, r) -> length r <= length s.
Proof. unfold parse_sign. intros H. repeat case_match; simplify_eq; cbn [length]; lia. Qed.

Lemma parse_exp_length s e r : parse_exp s = Some (e, r) -> length r <= length s.
Proof.
  unfold parse_exp. intros H. repeat case_match; simplify_eq; cbn [length]; try lia;
  repeat match goal with
  | H : span_digits _ = _ |- _ => apply span_digits_length in H
  | H : parse_sign _ = _ |- _ => apply parse_sign_length in H
  end; cbn [length] in *; lia.
Qed.

Lemma parse_number_shorter s lit r : parse_number s = Some (lit, r) -> length r < length s.
Proof.
  unfold parse_number. intros H. repeat case_match; simplify_eq;
  repeat match goal with
  | H : parse_int _ = _ |- _ => apply parse_int_shorter in H
  | H : parse_frac _ = _ |- _ => apply parse_frac_length in H
  | H : parse_exp _ = _ |- _ => apply parse_exp_length in H
  end; cbn [length] in *; lia.
Qed.

Lemma expect_chars_length p s r : expect_chars p s = Some r -> length r <= length s.
Proof.
  revert s r. induction p as [|x p IH]; intros [|y s] r H; cbn [expect_chars] in H; simplify_eq; try lia.
  destruct (x =? y)%N; [|discriminate]. apply IH in H. cbn [length]. lia.
Qed.

Lemma parse_value_S fuel s : parse_value (S fuel) s =
      match skip_ws s with
      | [] => Invalid
      | c :: r =>
          if (c =? chr "{")%N then
            match skip_ws r with
            | c' :: r' =>
                if (c' =? chr "}")%N then Parsed (JObject []) r'
                else parse_members fuel (c' :: r') []
            | [] => Invalid
            end
          else if (c =? chr "[")%N then
            match skip_ws r with
            | c' :: r' =>
                if (c' =? chr "]")%N then Parsed (JArray []) r'
                else parse_elements fuel (c' :: r') []
            | [] => Invalid
            end
          else if (c =? QUOTE)%N then
            match parse_string_body r with
            | Some (t, rest) => Parsed (JString t) rest
            | None => Invalid
            end
          else if (c =? chr "t")%N then
            match expect_chars (str "rue") r with
            | Some rest => Parsed (JBool true) rest
            | None => Invalid
            end
          else if (c =? chr "f")%N then
            match expect_chars (str "alse") r with
            | Some rest => Parsed (JBool false) rest
            | None => Invalid
            end
          else if (c =? chr "n")%N then
            match expect_chars (str "ull") r with
            | Some rest => Parsed JNull rest
            | None => Invalid
            end
          else
            match parse_number (c :: r) with
            | Some (lit, rest) => Parsed (JNumber lit) rest
            | None => Invalid
            end
      end.
Proof. reflexivity. Qed.

Lemma parse_elements_S fuel s acc : parse_elements (S fuel) s acc =
      match parse_value fuel s with
      | Parsed v r =>
          match skip_ws r with
          | c :: r' =>
              if (c =? chr ",")%N then parse_elements fuel r' (acc ++ [v])
              else if (c =? chr "]")%N then Parsed (JArray (acc ++ [v])) r'
              else Invalid
          | [] => Invalid
          end
      | Invalid => Invalid
      | OutOfFuel => OutOfFuel
      end.
Proof. reflexivity. Qed.

Lemma parse_members_S fuel s acc : parse_members (S fuel) s acc =
      match skip_ws s with
      | c :: r =>
          if (c =? QUOTE)%N then
            match parse_string_body r with
            | Some (k, r1) =>
                match skip_ws r1 with
                | c1 :: r2 =>
                    if (c1 =? chr ":")%N then
                      match parse_value fuel r2 with
                      | Parsed v r3 =>
                          match skip_ws r3 with
                          | c3 :: r4 =>
                              if (c3 =? chr ",")%N then parse_members fuel r4 (acc ++ [(k, v)])
                              else if (c3 =? chr "}")%N then Parsed (JObject (acc ++ [(k, v)])) r4
                              else Invalid
                          | [] => Invalid
                          end
                      | Invalid => Invalid
                      | OutOfFuel => OutOfFuel
                      end
                    else Invalid
                | [] => Invalid
                end
            | None => Invalid
            end
          else Invalid
      | [] => Invalid
      end.
Proof. reflexivity. Qed.

Ltac use_lengths :=
  repeat match goal with
  | H : skip_ws ?s = _ |- _ =>
      let L := fresh "L" in pose proof (skip_ws_length s) as L; rewrite H in L; clear H
  | H : parse_string_body _ = Some _ |- _ => apply parse_string_body_shorter in H
  | H : parse_number _ = Some _ |- _ => apply parse_number_shorter in H
  | H : expect_chars _ _ = Some _ |- _ => apply expect_chars_length in H
  end; cbn [length] in *.

Lemma parse_shorter fuel :
  (forall s v r, parse_value fuel s = Parsed v r -> length r < length s) /\
  (forall s acc v r, parse_elements fuel s acc = Parsed v r -> length r < length s) /\
  (forall s acc v r, parse_members fuel s acc = Parsed v r -> length r < length s).
Proof.
  induction fuel as [|fuel (IHv & IHe & IHm)]; [repeat split; intros; discriminate|].
  repeat split.
  - intros s v r. rewrite parse_value_S. intros H.
    repeat case_match; simplify_eq;
      try match goal with
      | H : parse_members _ _ _ = Parsed _ _ |- _ => apply IHm in H
      | H : parse_elements _ _ _ = Parsed _ _ |- _ => apply IHe in H
      end; use_lengths; lia.
  - intros s acc v r. rewrite parse_elements_S. intros H.
    repeat case_match; simplify_eq;
      repeat match goal with
      | H : parse_value _ _ = Parsed _ _ |- _ => apply IHv in H
      | H : parse_elements _ _ _ = Parsed _ _ |- _ => apply IHe in H
      end; use_lengths; lia.
  - intros s acc v r. rewrite parse_members_S. intros H.
    repeat case_match; simplify_eq;
      repeat match goal with
      | H : parse_value _ _ = Parsed _ _ |- _ => apply IHv in H
      | H : parse_members _ _ _ = Parsed _ _ |- _ => apply IHm in H
      end; use_lengths; lia.
Qed.

Lemma parse_fuel fuel :
  (forall s, 2 * length s < fuel -> parse_value fuel s <> OutOfFuel) /\
  (forall s acc, 2 * length s + 1 < fuel -> parse_elements fuel s acc <> OutOfFuel) /\
  (forall s acc, 2 * length s + 1 < fuel -> parse_members fuel s acc <> OutOfFuel).
Proof.
  induction fuel as [|fuel (IHv & IHe & IHm)]; [repeat split; intros; lia|].
  pose proof (proj1 (parse_shorter fuel)) as Hshort.
  repeat split.
  - intros s Hs. rewrite parse_value_S.
    repeat case_match; try discriminate; use_lengths;
      first [apply IHm | apply IHe]; cbn [length]; lia.
  - intros s acc Hs. rewrite parse_elements_S.
    repeat case_match; try discriminate; subst;
      try match goal with H : parse_value _ _ = Parsed _ _ |- _ => apply Hshort in H end;
      use_lengths;
      first [ exfalso; match goal with H : parse_value _ _ = OutOfFuel |- _ => revert H; apply IHv; lia end
            | apply IHe; lia ].
  - intros s acc Hs. rewrite parse_members_S.
    repeat case_match; try discriminate; subst;
      try match goal with H : parse_value _ _ = Parsed _ _ |- _ => apply Hshort in H end;
      use_lengths;
      first [ exfalso; match goal with H : parse_value _ _ = OutOfFuel |- _ => revert H; apply IHv; lia end
            | apply IHm; lia ].
Qed.

Lemma parse_more_fuel fuel :
  (forall s R, parse_value fuel s = R -> R <> OutOfFuel -> parse_value (S fuel) s = R) /\
  (forall s acc R, parse_elements fuel s acc = R -> R <> OutOfFuel -> parse_elements (S fuel) s acc = R) /\
  (forall s acc R, parse_members fuel s acc = R -> R <> OutOfFuel -> parse_members (S fuel) s acc = R).
Proof.
  induction fuel as [|fuel (IHv & IHe & IHm)]; [repeat split; intros; simplify_eq; congruence|].
  assert (Hsync : forall s v r R, parse_value fuel s = Parsed v r ->
                                  parse_value (S fuel) s = R -> R = Parsed v r).
  { intros s v r R Hv HR. rewrite (IHv _ _ Hv) in HR by discriminate. congruence. }
  assert (Hsync' : forall s R, parse_value fuel s = Invalid ->
                                  parse_value (S fuel) s = R -> R = Invalid).
  { intros s R Hv HR. rewrite (IHv _ _ Hv) in HR by discriminate. congruence. }
  repeat split.
  - intros s R. rewrite (parse_value_S (S fuel)), (parse_value_S fuel). intros H HR.
    repeat case_match; simplify_eq; try reflexivity;
      first [apply IHm | apply IHe]; auto.
  - intros s acc R. rewrite (parse_elements_S (S fuel)), (parse_elements_S fuel). intros H HR.
    destruct (parse_value fuel s) as [v r| |] eqn:Hv; [| |congruence].
    + rewrite (IHv _ _ Hv) by discriminate.
      repeat case_match; simplify_eq; try reflexivity. apply IHe; auto.
    + rewrite (IHv _ _ Hv) by discriminate. auto.
  - intros s acc R. rewrite (parse_members_S (S fuel)), (parse_members_S fuel). intros H HR.
    repeat case_match; simplify_eq; try reflexivity; try congruence;
      try match goal with
      | H : parse_value ?f ?s = Parsed _ _, H' : parse_value (S ?f) ?s = _ |- _ =>
          apply (Hsync _ _ _ _ H) in H'; simplify_eq
      | H : parse_value ?f ?s = Invalid, H' : parse_value (S ?f) ?s = _ |- _ =>
          apply (Hsync' _ _ H) in H'; simplify_eq
      end; try reflexivity; try congruence.
    match goal with
    | H : skip_ws ?x = _, H' : skip_ws ?x = _ |- _ => rewrite H in H'; simplify_eq
    end.
    apply IHm; auto.
Qed.

Lemma parse_value_fuel_le f f' s R :
  parse_value f s = R -> R <> OutOfFuel -> f <= f' -> parse_value f' s = R.
Proof.
  intros H HR Hle. induction Hle as [|f' _ IH]; [assumption|].
  apply (proj1 (parse_more_fuel f')); assumption.
Qed.

(** Twice the length of the text, and one, is fuel enough. *)
Lemma parse_value_fuel f s v r :
  parse_value f s = Parsed v r -> parse_value (2 * length s + 1) s = Parsed v r.
Proof.
  intros H.
  destruct (parse_value (2 * length s + 1) s) as [v' r'| |] eqn:E.
  - pose proof (parse_value_fuel_le _ (max f (2 * length s + 1)) _ _ H) as H1.
    pose proof (parse_value_fuel_le _ (max f (2 * length s + 1)) _ _ E) as H2.
    rewrite H1 in H2 by (discriminate || lia). symmetry. apply H2; [discriminate | lia].
  - pose proof (parse_value_fuel_le _ (max f (2 * length s + 1)) _ _ H) as H1.
    pose proof (parse_value_fuel_le _ (max f (2 * length s + 1)) _ _ E) as H2.
    rewrite H1 in H2 by (discriminate || lia). symmetry. apply H2; [discriminate | lia].
  - exfalso. revert E. apply (proj1 (parse_fuel _)). lia.
Qed.


(** ** [JSON.stringify] then [JSON.parse] *)

Lemma hex_value_hex_digit d : (d < 16)%N -> hex_value (hex_digit d) = Some d.
Proof.
  intros Hd. unfold hex_digit, hex_value, is_digit.
  destruct (N.ltb_spec d 10).
  - replace ((48 <=? 48 + d)%N && (48 + d <=? 57)%N) with true
      by (symmetry; apply andb_true_intro; split; apply N.leb_le; lia).
    f_equal. lia.
  - replace ((48 <=? 87 + d)%N && (87 + d <=? 57)%N) with false
      by (symmetry; apply andb_false_intro2; apply N.leb_gt; lia).
    replace ((97 <=? 87 + d)%N && (87 + d <=? 102)%N) with true
      by (symmetry; apply andb_true_intro; split; apply N.leb_le; lia).
    f_equal. lia.
Qed.

Lemma hex4_digits c : (c < 65536)%N ->
  hex4 (hex_digit ((c / 4096) mod 16)) (hex_digit ((c / 256) mod 16))
       (hex_digit ((c / 16) mod 16)) (hex_digit (c mod 16)) = Some c.
Proof.
  intros Hc. unfold hex4.
  rewrite !hex_value_hex_digit by (apply N.mod_upper_bound; lia).
  f_equal. apply N2Z.inj.
  rewrite !N2Z.inj_add, !N2Z.inj_mul, !N2Z.inj_mod, !N2Z.inj_div.
  apply N2Z.inj_lt in Hc. pose proof (N2Z.is_nonneg c).
  simpl Z.of_N in *. generalize dependent (Z.of_N c). intros z Hz Hz'.
  Z.div_mod_to_equations. lia.
Qed.

Lemma parse_string_body_unicode c r : (c < 65536)%N ->
  parse_string_body (unicode_escape c ++ r) = continue_string c r.
Proof.
  intros Hc. unfold unicode_escape. cbn [app parse_string_body].
  change (BACKSLASH =? QUOTE)%N with false. change (BACKSLASH =? BACKSLASH)%N with true.
  change (chr "u" =? chr "u")%N with true. cbv iota.
  rewrite hex4_digits by assumption. reflexivity.
Qed.

Lemma parse_string_body_plain c r :
  c <> QUOTE -> c <> BACKSLASH -> (32 <= c)%N ->
  parse_string_body (c :: r) = continue_string c r.
Proof.
  intros H1 H2 H3. cbn [parse_string_body].
  destruct (N.eqb_spec c QUOTE); [contradiction|].
  destruct (N.eqb_spec c BACKSLASH); [contradiction|].
  destruct (N.ltb_spec c 32); [lia|]. reflexivity.
Qed.

Lemma parse_string_body_code_unit c r :
  parse_string_body (quote_code_unit c ++ r) = continue_string c r.
Proof.
  unfold quote_code_unit.
  repeat match goal with
  | |- context [(c =? ?k)%N] => destruct (N.eqb_spec c k); [subst c; reflexivity|]
  end.
  destruct (N.ltb_spec c 32).
  - apply parse_string_body_unicode. lia.
  - apply parse_string_body_plain; assumption.
Qed.

Lemma parse_string_body_quote_chars s : forall rest,
  parse_string_body (quote_chars s ++ QUOTE :: rest) = Some (s, rest).
Proof.
  induction s as [s IH] using (induction_ltof1 _ (@length N)). unfold ltof in IH.
  intros rest. destruct s as [|c s]; [reflexivity|].
  cbn [quote_chars].
  assert (Hs : forall c, parse_string_body (quote_chars s ++ QUOTE :: rest) = Some (s, rest) ->
              continue_string c (quote_chars s ++ QUOTE :: rest) = Some (c :: s, rest)).
  { intros c' E. unfold continue_string. rewrite E. reflexivity. }
  destruct (is_high_surrogate c) eqn:Hh.
  - unfold is_high_surrogate in Hh. apply andb_prop in Hh as [Hh1 Hh2].
    apply N.leb_le in Hh1, Hh2.
    destruct s as [|d s'].
    + cbn [app]. rewrite <- (app_nil_r (unicode_escape c)), <- app_assoc.
      rewrite parse_string_body_unicode by lia. reflexivity.
    + destruct (is_low_surrogate d) eqn:Hl.
      * unfold is_low_surrogate in Hl. apply andb_prop in Hl as [Hl1 Hl2].
        apply N.leb_le in Hl1, Hl2.
        cbn [app]. rewrite parse_string_body_plain by (unfold QUOTE, BACKSLASH; lia).
        unfold continue_string. rewrite parse_string_body_plain by (unfold QUOTE, BACKSLASH; lia).
        unfold continue_string. rewrite IH by (cbn [length]; lia). reflexivity.
      * rewrite <- app_assoc, parse_string_body_unicode by lia.
        apply Hs, IH. cbn [length]. lia.
  - destruct (is_low_surrogate c) eqn:Hl.
    + unfold is_low_surrogate in Hl. apply andb_prop in Hl as [Hl1 Hl2].
      apply N.leb_le in Hl1, Hl2.
      rewrite <- app_assoc, parse_string_body_unicode by lia.
      apply Hs, IH. cbn [length]. lia.
    + rewrite <- app_assoc, parse_string_body_code_unit.
      apply Hs, IH. cbn [length]. lia.
Qed.

Lemma parse_elements_fuel_le f f' s acc R :
  parse_elements f s acc = R -> R <> OutOfFuel -> f <= f' -> parse_elements f' s acc = R.
Proof.
  intros H HR Hle. induction Hle as [|f' _ IH]; [assumption|].
  apply (proj1 (proj2 (parse_more_fuel f'))); assumption.
Qed.

Lemma parse_members_fuel_le f f' s acc R :
  parse_members f s acc = R -> R <> OutOfFuel -> f <= f' -> parse_members f' s acc = R.
Proof.
  intros H HR Hle. induction Hle as [|f' _ IH]; [assumption|].
  apply (proj2 (proj2 (parse_more_fuel f'))); assumption.
Qed.

Lemma JSON_stringify_head v : number_free v = true ->
  exists c t, JSON_stringify v = c :: t /\ opens_value c = true.
Proof.
  destruct v as [|[]| | | |]; cbn; intros H; try discriminate; eauto.
Qed.

Lemma skip_ws_head c t : is_ws c = false -> skip_ws (c :: t) = c :: t.
Proof. intros H. cbn [skip_ws]. rewrite H. reflexivity. Qed.

Lemma opens_value_spec c : opens_value c = true ->
  is_ws c = false /\ (c =? chr "]")%N = false /\ (c =? chr "}")%N = false
  /\ (c =? chr ",")%N = false.
Proof.
  unfold opens_value. rewrite !orb_true_iff, !N.eqb_eq.
  intros H. destruct_or!; subst c; repeat split; reflexivity.
Qed.

Ltac flatten_app := repeat first [progress cbn [app] | rewrite <- app_assoc].

Lemma parse_elements_stringify v l :
  Forall reparses (v :: l) -> forall acc rest,
  exists f, parse_elements f (join [chr ","] (map JSON_stringify (v :: l)) ++ chr "]" :: rest) acc
            = Parsed (JArray (acc ++ v :: l)) rest.
Proof.
  revert v. induction l as [|v' l IH]; intros v Hall acc rest.
  - apply Forall_inv in Hall. destruct (Hall (chr "]" :: rest)) as [f Hf].
    exists (S f). rewrite parse_elements_S. cbn [map join]. rewrite Hf. reflexivity.
  - pose proof (Forall_inv Hall) as Hv. apply Forall_inv_tail in Hall.
    destruct (IH v' Hall (acc ++ [v]) rest) as [f2 Hf2].
    destruct (Hv (chr "," :: join [chr ","] (map JSON_stringify (v' :: l)) ++ chr "]" :: rest))
      as [f1 Hf1].
    exists (S (max f1 f2)). rewrite parse_elements_S.
    change (join [chr ","] (map JSON_stringify (v :: v' :: l)))
      with (JSON_stringify v ++ [chr ","] ++ join [chr ","] (map JSON_stringify (v' :: l))).
    rewrite <- !app_assoc. cbn [app].
    rewrite (parse_value_fuel_le _ _ _ _ Hf1) by (discriminate || lia).
    cbn [skip_ws]. change (is_ws (chr ",")) with false. cbv iota.
    change (chr "," =? chr ",")%N with true. cbv iota.
    rewrite (parse_elements_fuel_le _ _ _ _ _ Hf2) by (discriminate || lia).
    rewrite <- app_assoc. reflexivity.
Qed.

Lemma parse_members_stringify m ms :
  Forall (fun m => reparses (snd m)) (m :: ms) -> forall acc rest,
  exists f, parse_members f (join [chr ","] (map member_text (m :: ms)) ++ chr "}" :: rest) acc
            = Parsed (JObject (acc ++ m :: ms)) rest.
Proof.
  revert m. induction ms as [|m' ms IH]; intros [k v] Hall acc rest.
  - apply Forall_inv in Hall. destruct (Hall (chr "}" :: rest)) as [f Hf].
    exists (S f). rewrite parse_members_S. cbn [map join]. unfold member_text. cbn [fst snd].
    unfold QuoteJSONString. rewrite <- !app_assoc. cbn [app skip_ws].
    change (is_ws QUOTE) with false. cbv iota.
    change (QUOTE =? QUOTE)%N with true. cbv iota.
    rewrite <- app_assoc. cbn [app]. rewrite parse_string_body_quote_chars.
    cbn [skip_ws]. change (is_ws (chr ":")) with false. cbv iota.
    change (chr ":" =? chr ":")%N with true. cbv iota.
    cbn [snd] in Hf. rewrite Hf. reflexivity.
  - pose proof (Forall_inv Hall) as Hv. apply Forall_inv_tail in Hall. cbn [snd] in Hv.
    destruct (IH m' Hall (acc ++ [(k, v)]) rest) as [f2 Hf2].
    destruct (Hv (chr "," :: join [chr ","] (map member_text (m' :: ms)) ++ chr "}" :: rest))
      as [f1 Hf1].
    exists (S (max f1 f2)). rewrite parse_members_S.
    change (join [chr ","] (map member_text ((k, v) :: m' :: ms)))
      with (member_text (k, v) ++ [chr ","] ++ join [chr ","] (map member_text (m' :: ms))).
    unfold member_text at 1. cbn [fst snd]. unfold QuoteJSONString.
    rewrite <- !app_assoc. cbn [app skip_ws].
    change (is_ws QUOTE) with false. cbv iota.
    change (QUOTE =? QUOTE)%N with true. cbv iota.
    rewrite <- !app_assoc. cbn [app]. rewrite parse_string_body_quote_chars.
    cbn [skip_ws]. change (is_ws (chr ":")) with false. cbv iota.
    change (chr ":" =? chr ":")%N with true. cbv iota.
    rewrite (parse_value_fuel_le _ _ _ _ Hf1) by (discriminate || lia).
    cbn [skip_ws]. change (is_ws (chr ",")) with false. cbv iota.
    change (chr "," =? chr ",")%N with true. cbv iota.
    rewrite (parse_members_fuel_le _ _ _ _ _ Hf2) by (discriminate || lia).
    rewrite <- app_assoc. reflexivity.
Qed.

Lemma join_head sep p ps tail c t :
  p = c :: t -> exists t', join sep (p :: ps) ++ tail = c :: t'.
Proof. intros ->. destruct ps; cbn [join app]; eauto. Qed.

Lemma parse_value_stringify v : number_free v = true -> reparses v.
Proof.
  induction v as [|b|lit|s|l IH|ms IH] using json_induction; intros Hnf rest.
  - exists 1. reflexivity.
  - exists 1. destruct b; reflexivity.
  - discriminate.
  - exists 1. rewrite parse_value_S. cbn [JSON_stringify]. unfold QuoteJSONString.
    flatten_app. cbn [skip_ws].
    change (is_ws QUOTE) with false. cbv iota.
    change (QUOTE =? chr "{")%N with false. change (QUOTE =? chr "[")%N with false.
    change (QUOTE =? QUOTE)%N with true. cbv iota.
    rewrite parse_string_body_quote_chars. reflexivity.
  - cbn [number_free] in Hnf. rewrite forallb_forall in Hnf.
    destruct l as [|v l]; [exists 1; reflexivity|].
    assert (Hall : Forall reparses (v :: l)).
    { rewrite Forall_forall in IH |- *. intros x Hx. apply IH; [assumption|].
      apply Hnf. apply list_elem_of_In. assumption. }
    destruct (parse_elements_stringify v l Hall [] rest) as [f Hf].
    destruct (JSON_stringify_head v) as (c & t & Hc & Hopen).
    { apply Hnf. left. reflexivity. }
    apply opens_value_spec in Hopen as (Hws & Hclose & _).
    destruct (join_head [chr ","] _ (map JSON_stringify l) (chr "]" :: rest) _ _ Hc)
      as [t' Ht'].
    exists (S f). rewrite parse_value_S. cbn [JSON_stringify].
    flatten_app. cbn [skip_ws].
    change (is_ws (chr "[")) with false. cbv iota.
    change (chr "[" =? chr "{")%N with false. change (chr "[" =? chr "[")%N with true.
    cbv iota. cbn [map] in Hf |- *. rewrite Ht' in Hf |- *.
    rewrite skip_ws_head by assumption. rewrite Hclose. exact Hf.
  - cbn [number_free] in Hnf. rewrite forallb_forall in Hnf.
    destruct ms as [|m ms]; [exists 1; reflexivity|].
    assert (Hall : Forall (fun m => reparses (snd m)) (m :: ms)).
    { rewrite Forall_forall in IH |- *. intros x Hx. apply IH; [assumption|].
      apply Hnf. apply list_elem_of_In. assumption. }
    destruct (parse_members_stringify m ms Hall [] rest) as [f Hf].
    destruct (join_head [chr ","] (member_text m) (map member_text ms) (chr "}" :: rest)
                QUOTE (quote_chars (fst m) ++ [QUOTE] ++ chr ":" :: JSON_stringify (snd m)))
      as [t' Ht'].
    { unfold member_text, QuoteJSONString. flatten_app. reflexivity. }
    exists (S f). rewrite parse_value_S. cbn [JSON_stringify].
    flatten_app. cbn [skip_ws].
    change (is_ws (chr "{")) with false. cbv iota.
    change (chr "{" =? chr "{")%N with true. cbv iota.
    fold member_text. cbn [map] in Hf |- *. rewrite Ht' in Hf |- *.
    rewrite skip_ws_head by reflexivity.
    change (QUOTE =? chr "}")%N with false. cbv iota. exact Hf.
Qed.

Theorem JSON_parse_stringify v : number_free v = true -> JSON_parse (JSON_stringify v) = Return v.
Proof.
  intros Hnf. destruct (parse_value_stringify v Hnf []) as [f Hf].
  rewrite app_nil_r in Hf. apply parse_value_fuel in Hf.
  unfold JSON_parse. rewrite Hf. reflexivity.
Qed.

(** ** The authorization check *)

Lemma string_eqb_eq a b : string_eqb a b = true <-> a = b.
Proof.
  revert b. induction a as [|x a IH]; intros [|y b]; cbn [string_eqb]; try (split; congruence).
  rewrite andb_true_iff, N.eqb_eq, IH. split; [intros [-> ->]; reflexivity | intros [= -> ->]; auto].
Qed.

Lemma string_eqb_refl a : string_eqb a a = true.
Proof. apply string_eqb_eq. reflexivity. Qed.

Lemma emits_emits evs1 evs2 w : emits evs2 (emits evs1 w) = emits (evs1 ++ evs2) w.
Proof. unfold emits. cbn. rewrite app_assoc. reflexivity. Qed.

Lemma emit_emits ev w : emit ev w = emits [ev] w.
Proof. reflexivity. Qed.

Lemma shouldUseAccessKey_run tx w :
  shouldUseAccessKey tx w =
  match localStorage w !! STORAGE_KEY with
  | Some (c :: text) =>
      (emits [EvGetItem STORAGE_KEY; EvGetItem STORAGE_KEY] w, check_key (c :: text) tx)
  | _ => (emits [EvGetItem STORAGE_KEY] w, Return false)
  end.
Proof.
  unfold shouldUseAccessKey, bind, getItem, check_key, lift, ret, parse_item.
  cbn [localStorage emit].
  destruct (localStorage w !! STORAGE_KEY) as [[|c text]|] eqn:E; cbn [falsy]; try reflexivity.
  rewrite !emit_emits, emits_emits. cbn [app emits localStorage]. rewrite E.
  destruct (JSON_parse (c :: text)) as [key|e]; cbn [cbind]; [|reflexivity].
  destruct (get_prop key (str "contractId")) as [cid|e]; cbn [cbind]; [|reflexivity].
  destruct (negb _); reflexivity.
Qed.

Lemma as_strings_map l ms : as_strings l = Some ms -> l = map JString ms.
Proof.
  revert ms. induction l as [|v l IH]; intros ms H; cbn [as_strings] in H.
  - simplify_eq. reflexivity.
  - destruct v; try discriminate. destruct (as_strings l) as [ms'|]; [|discriminate].
    cbn in H. simplify_eq. cbn. f_equal. auto.
Qed.

Lemma read_AccessKeyData_fields v C :
  read_AccessKeyData v = Some C ->
  exists ms, v = JObject ms
    /\ lookup_member (str "contractId") ms = Some (JString (key_contractId C))
    /\ lookup_member (str "allowedMethods") ms
       = Some (JArray (map JString (key_allowedMethods C))).
Proof.
  unfold read_AccessKeyData. destruct v as [| | | | |ms]; try discriminate.
  intros H. exists ms. split; [reflexivity|].
  destruct (lookup_member (str "accountId") ms) as [[]|]; try discriminate.
  destruct (lookup_member (str "privateKey") ms) as [[]|]; try discriminate.
  destruct (lookup_member (str "contractId") ms) as [[]|]; try discriminate.
  destruct (lookup_member (str "allowedMethods") ms) as [[| | | |l|]|]; try discriminate.
  cbn in H. destruct (as_strings l) as [m|] eqn:El; [|discriminate].
  destruct (lookup_member (str "allowance") ms) as [[]|]; try discriminate.
  cbn in H. simplify_eq. cbn. apply as_strings_map in El. subst. auto.
Qed.

Lemma includes_strings x l :
  existsb (same_value_zero x) (map JString l) = true <-> exists m, x = Some m /\ In m l.
Proof.
  induction l as [|s l IH]; cbn [map existsb].
  - split; [discriminate | intros (m & _ & [])].
  - rewrite orb_true_iff, IH. split.
    + intros [H|(m & -> & Hin)].
      * destruct x as [m|]; [|discriminate]. cbn in H. apply string_eqb_eq in H as ->.
        exists s. split; [reflexivity | left; reflexivity].
      * exists m. split; [reflexivity | right; assumption].
    + intros (m & -> & [->|Hin]).
      * left. cbn. apply string_eqb_refl.
      * right. eauto.
Qed.

Lemma check_actions_scope ms methods acts :
  lookup_member (str "allowedMethods") ms = Some (JArray (map JString methods)) ->
  exists b, check_actions (JObject ms) acts = Return b /\
    (b = true <-> Forall (fun a => exists p m, a = FunctionCall p /\ methodName p = Some m
                                    /\ In m methods) acts).
Proof.
  intros Hm. induction acts as [|a acts (b & Hb & IH)]; cbn [check_actions].
  - exists true. split; [reflexivity|]. split; auto.
  - destruct a as [p| |].
    + cbn [get_prop cbind]. rewrite Hm. cbn [includes cbind].
      destruct (existsb (same_value_zero (methodName p)) (map JString methods)) eqn:E; cbn [negb].
      * exists b. split; [assumption|]. rewrite IH. split.
        -- intros H. constructor; [|assumption].
           apply includes_strings in E as (m & Hm' & Hin). eauto.
        -- intros H. apply Forall_inv_tail in H. assumption.
      * exists false. split; [reflexivity|]. split; [discriminate|].
        intros H. apply Forall_inv in H as (p' & m & [= <-] & Hm' & Hin).
        assert (existsb (same_value_zero (methodName p)) (map JString methods) = true)
          by (apply includes_strings; eauto).
        congruence.
    + exists false. split; [reflexivity|]. split; [discriminate|].
      intros H. apply Forall_inv in H as (p' & m & [=] & _).
    + exists false. split; [reflexivity|]. split; [discriminate|].
      intros H. apply Forall_inv in H as (p' & m & [=] & _).
Qed.

Lemma JSON_parse_nonempty text v : JSON_parse text = Return v -> text <> [].
Proof. intros H ->. discriminate. Qed.

(** C1: with a credential [C] stored, [shouldUseAccessKey] returns, and it
    returns [true] exactly when the request's [receiverId] is [C]'s
    [contractId] and every action is a [FunctionCall] whose [methodName] is
    one of [C]'s [allowedMethods]; with nothing stored it returns [false]. *)
Theorem shouldUseAccessKey_iff_in_scope (w : World) (R : SignAndSendTransactionParams) :
  (forall C, holds_credential w C ->
     exists b, verdict w R = Return b /\ (b = true <-> in_scope C R))
  /\ (localStorage w !! STORAGE_KEY = None -> verdict w R = Return false).
Proof.
  unfold verdict. rewrite shouldUseAccessKey_run. split.
  - intros C (text & v & Hitem & Hparse & Hread). rewrite Hitem.
    destruct text as [|c text]; [discriminate|]. cbn [snd]. unfold check_key.
    rewrite Hparse. cbn [cbind].
    apply read_AccessKeyData_fields in Hread as (ms & -> & Hc & Hm).
    cbn [get_prop cbind]. rewrite Hc. cbn [strict_equal_string]. unfold in_scope.
    destruct (string_eqb (receiverId R) (key_contractId C)) eqn:E; cbn [negb].
    + apply string_eqb_eq in E.
      destruct (check_actions_scope ms (key_allowedMethods C) (actions R) Hm) as (b & Hb & Hiff).
      exists b. split; [assumption|]. rewrite Hiff. tauto.
    + exists false. split; [reflexivity|]. split; [discriminate|].
      intros [Heq _]. apply string_eqb_eq in Heq. congruence.
  - intros ->. reflexivity.
Qed.

Lemma example_credential_held : holds_credential app_world example_credential.
Proof.
  exists example_text, (json_of_AccessKeyData example_credential).
  repeat split; vm_compute; reflexivity.
Qed.

Lemma shouldUseAccessKey_iff_in_scope_witness :
  holds_credential app_world example_credential
  /\ exists b, verdict app_world vote_request = Return b
               /\ (b = true <-> in_scope example_credential vote_request).
Proof.
  split; [exact example_credential_held|].
  apply (proj1 (shouldUseAccessKey_iff_in_scope app_world vote_request) example_credential).
  exact example_credential_held.
Defined.

(** The examples of the specification: [vote] on [app.near] is authorized,
    another method or another contract is not. *)
Example verdict_examples :
  verdict app_world vote_request = Return true
  /\ verdict app_world comment_request = Return false
  /\ verdict app_world other_request = Return false
  /\ verdict empty_world vote_request = Return false.
Proof. repeat split; vm_compute; reflexivity. Qed.

(** The answer depends on the storage only, and the check only reads. *)
Lemma verdict_emits evs w tx : verdict (emits evs w) tx = verdict w tx.
Proof.
  unfold verdict. rewrite !shouldUseAccessKey_run. cbn [emits localStorage].
  repeat case_match; reflexivity.
Qed.

Lemma shouldUseAccessKey_reads tx w :
  exists evs, Forall (fun ev => ev = EvGetItem STORAGE_KEY) evs
    /\ shouldUseAccessKey tx w = (emits evs w, verdict w tx).
Proof.
  unfold verdict. rewrite shouldUseAccessKey_run.
  repeat case_match; eexists; (split; [|reflexivity]); repeat constructor.
Qed.

Lemma emits_nil w : emits [] w = w.
Proof. destruct w. unfold emits. cbn. rewrite app_nil_r. reflexivity. Qed.

Lemma surjective_run {A} (m : M A) w : m w = (fst (m w), snd (m w)).
Proof. destruct (m w). reflexivity. Qed.

Lemma events_since_app w w' evs : log w' = log w ++ evs -> events_since w w' = evs.
Proof. unfold events_since. intros ->. rewrite drop_app_length. reflexivity. Qed.

Lemma events_since_emits w evs : events_since w (emits evs w) = evs.
Proof. apply events_since_app. reflexivity. Qed.

(** ** Malformed stored data *)

Lemma JSON_parse_throws text e : JSON_parse text = Throw e -> e = SyntaxError.
Proof. unfold JSON_parse. intros H. repeat case_match; congruence. Qed.

(** A text [JSON_parse] refuses is refused whatever the fuel. *)
Lemma JSON_parse_refuses_any_fuel text f v r :
  JSON_parse text = Throw SyntaxError -> parse_value f text = Parsed v r -> skip_ws r <> [].
Proof.
  unfold JSON_parse. intros H Hf. apply parse_value_fuel in Hf. rewrite Hf in H.
  destruct (skip_ws r); [discriminate | congruence].
Qed.

(** C2, as the code has it: a stored text that is not JSON makes the check
    throw [SyntaxError] (and [signAndSendTransaction], and a batch that
    starts with the request, reject with it, the fallback not called);
    only the empty string is read as absent. *)
Theorem malformed_item_throws (lib : NearJs) (w : World) (text : list N)
    (tx : SignAndSendTransactionParams) :
  localStorage w !! STORAGE_KEY = Some text ->
  JSON_parse text = Throw SyntaxError ->
  match text with
  | [] => verdict w tx = Return false
  | _ :: _ =>
      let read := emits [EvGetItem STORAGE_KEY; EvGetItem STORAGE_KEY] w in
      verdict w tx = Throw SyntaxError
      /\ (forall next, signAndSendTransaction lib tx next w = (read, Throw SyntaxError))
      /\ (forall txs next,
            signAndSendTransactions lib {| transactions := tx :: txs |} next w
            = (read, Throw SyntaxError))
  end.
Proof.
  intros Hitem Hparse.
  assert (Hrun := shouldUseAccessKey_run tx w). rewrite Hitem in Hrun.
  destruct text as [|c text].
  - unfold verdict. rewrite Hrun. reflexivity.
  - unfold check_key in Hrun. rewrite Hparse in Hrun. cbn [cbind] in Hrun. cbv zeta.
    split; [unfold verdict; rewrite Hrun; reflexivity|]. split.
    + intros next. unfold signAndSendTransaction, bind. rewrite Hrun. reflexivity.
    + intros txs next. unfold signAndSendTransactions, bind. cbn [transactions every].
      unfold bind. rewrite Hrun. reflexivity.
Qed.

Lemma malformed_item_throws_witness :
  verdict truncated_world vote_request = Throw SyntaxError
  /\ (forall next, signAndSendTransaction example_lib vote_request next truncated_world
                   = (emits [EvGetItem STORAGE_KEY; EvGetItem STORAGE_KEY] truncated_world,
                      Throw SyntaxError))
  /\ (forall txs next,
        signAndSendTransactions example_lib {| transactions := vote_request :: txs |} next
          truncated_world
        = (emits [EvGetItem STORAGE_KEY; EvGetItem STORAGE_KEY] truncated_world,
           Throw SyntaxError)).
Proof.
  apply (malformed_item_throws example_lib truncated_world truncated_text vote_request);
    vm_compute; reflexivity.
Defined.

(** C2, as stated, fails: with a truncated record under the key the check
    throws; it does not return [false]. *)
Lemma truncated_item_is_not_absent :
  localStorage truncated_world !! STORAGE_KEY
  = Some (str "{" ++ QUOTE :: str "accountId" ++ QUOTE :: str ":" ++ QUOTE :: str "alice.near"
          ++ QUOTE :: str "," ++ QUOTE :: str "pri")
  /\ verdict truncated_world vote_request = Throw SyntaxError
  /\ verdict truncated_world vote_request <> Return false.
Proof. repeat split; [vm_compute; reflexivity.. | discriminate]. Qed.

(** ** Batches: all or nothing *)

(** [every shouldUseAccessKey] only reads the storage. *)
Lemma every_reads txs w :
  exists evs, Forall (fun ev => ev = EvGetItem STORAGE_KEY) evs
    /\ fst (every shouldUseAccessKey txs w) = emits evs w.
Proof.
  revert w. induction txs as [|tx txs IH]; intros w; cbn [every].
  - exists []. split; [constructor|]. cbn. rewrite emits_nil. reflexivity.
  - unfold bind. destruct (shouldUseAccessKey_reads tx w) as (evs & Hevs & ->).
    destruct (verdict w tx) as [[]|e].
    + destruct (IH (emits evs w)) as (evs' & Hevs' & E). exists (evs ++ evs').
      split; [apply Forall_app; auto|]. rewrite E, emits_emits. reflexivity.
    + exists evs. auto.
    + exists evs. auto.
Qed.

Lemma every_true txs w :
  (forall tx, In tx txs -> verdict w tx = Return true) ->
  snd (every shouldUseAccessKey txs w) = Return true.
Proof.
  revert w. induction txs as [|tx txs IH]; intros w H; cbn [every]; [reflexivity|].
  unfold bind. destruct (shouldUseAccessKey_reads tx w) as (evs & Hevs & ->).
  rewrite (H tx) by (left; reflexivity). apply IH.
  intros tx' Hin. rewrite verdict_emits. apply H. right. assumption.
Qed.






(** C10: on the empty batch [signAndSendTransactions] returns the empty
    list and leaves the world as it was (no read, no submission), whatever
    the storage holds and whatever [next] would do. *)
Theorem signAndSendTransactions_empty (lib : NearJs) (next : M (list FinalExecutionOutcome))
    (w : World) :
  signAndSendTransactions lib {| transactions := [] |} next w = (w, Return []).
Proof. unfold signAndSendTransactions, bind. cbn [transactions every sign_each]. reflexivity. Qed.

(** ** The local path never meets an unsupported action *)

Lemma check_actions_true key acts :
  check_actions key acts = Return true -> Forall is_FunctionCall acts.
Proof.
  induction acts as [|a acts IH]; cbn [check_actions]; intros H; [constructor|].
  destruct a as [p| |]; try discriminate.
  destruct (get_prop key (str "allowedMethods")) as [m|]; [|discriminate]. cbn [cbind] in H.
  destruct (includes m (methodName p)) as [[]|]; try discriminate. cbn [cbind negb] in H.
  constructor; [exists p; reflexivity | auto].
Qed.

Lemma map_actions_FunctionCall acts :
  Forall is_FunctionCall acts ->
  (exists ns, map_actions acts = Return ns) \/ map_actions acts = Throw SyntaxError
  \/ map_actions acts = Throw TypeError.
Proof.
  induction 1 as [|a acts [p ->] _ IH]; cbn [map_actions native_action]; [left; eauto|].
  unfold BigInt. destruct (StringToBigInt _); cbn [cbind]; [|right; left; reflexivity].
  destruct (StringToBigInt _); cbn [cbind]; [|right; left; reflexivity].
  unfold functionCall.
  destruct (args p); cbn [cbind]; try (right; right; reflexivity);
    destruct IH as [[ns ->]|[->| ->]]; cbn [cbind]; eauto.
Qed.

(** C6: when [shouldUseAccessKey] has returned [true] for a request, every
    action of the request is a [FunctionCall], so the translation of
    [signTransactionLocally] never throws its unsupported-action [Error]. *)
Theorem unsupported_action_unreachable (w : World) (tx : SignAndSendTransactionParams) :
  verdict w tx = Return true ->
  Forall is_FunctionCall (actions tx)
  /\ forall message, map_actions (actions tx) <> Throw (Error message).
Proof.
  unfold verdict. rewrite shouldUseAccessKey_run. intros H.
  assert (Hacts : Forall is_FunctionCall (actions tx)).
  { destruct (localStorage w !! STORAGE_KEY) as [[|c text]|]; try discriminate.
    cbn [snd] in H. unfold check_key in H.
    destruct (JSON_parse (c :: text)) as [key|]; [|discriminate]. cbn [cbind] in H.
    destruct (get_prop key (str "contractId")) as [cid|]; [|discriminate]. cbn [cbind] in H.
    destruct (negb _); [discriminate|]. eapply check_actions_true; eassumption. }
  split; [assumption|]. intros message.
  destruct (map_actions_FunctionCall _ Hacts) as [[ns ->]|[->| ->]]; discriminate.
Qed.

Lemma unsupported_action_unreachable_witness :
  verdict app_world vote_request = Return true
  /\ Forall is_FunctionCall (actions vote_request)
  /\ forall message, map_actions (actions vote_request) <> Throw (Error message).
Proof.
  split; [vm_compute; reflexivity|].
  apply (unsupported_action_unreachable app_world vote_request). vm_compute. reflexivity.
Defined.

(** A request the check refuses does reach that branch when translated. *)
Example unsupported_action_example :
  map_actions [OtherAction Transfer JNull] = Throw (Error (str "Unsupported action type: Transfer")).
Proof. vm_compute. reflexivity. Qed.

(** ** Sign-out *)

(** C9: [signOut] removes the stored credential and then runs the fallback
    [next], whatever the storage held; once the slot is empty every request
    goes to the fallback; and if [next] leaves the slot alone, the slot is
    empty when [signOut] is over. *)
Theorem signOut_clears_then_falls_back (lib : NearJs) (next : M unit) (w : World) :
  let cleared :=
    emit (EvRemoveItem STORAGE_KEY)
      {| localStorage := delete STORAGE_KEY (localStorage w); log := log w |} in
  signOut (Some next) w = next cleared
  /\ localStorage cleared !! STORAGE_KEY = None
  /\ (forall w', localStorage w' !! STORAGE_KEY = None ->
        forall tx fallback,
          verdict w' tx = Return false
          /\ signAndSendTransaction lib tx fallback w'
             = fallback (emits [EvGetItem STORAGE_KEY] w'))
  /\ ((forall u, localStorage (fst (next u)) !! STORAGE_KEY = localStorage u !! STORAGE_KEY) ->
        localStorage (fst (signOut (Some next) w)) !! STORAGE_KEY = None).
Proof.
  cbv zeta.
  assert (Hcleared : forall (m : gmap (list N) (list N)), delete STORAGE_KEY m !! STORAGE_KEY = None)
    by (intros m; apply lookup_delete_eq).
  split; [reflexivity|]. split; [apply Hcleared|]. split.
  - intros w' Hw' tx fallback. unfold verdict, signAndSendTransaction, bind.
    rewrite shouldUseAccessKey_run, Hw'. split; reflexivity.
  - intros Hnext. unfold signOut, bind, removeItem. rewrite Hnext. apply Hcleared.
Qed.

Lemma signOut_clears_then_falls_back_witness :
  verdict app_world vote_request = Return true
  /\ verdict (fst (signOut (Some (ret tt)) app_world)) vote_request = Return false.
Proof.
  split; [vm_compute; reflexivity|].
  destruct (signOut_clears_then_falls_back example_lib (ret tt) app_world)
    as (_ & _ & Hfalls & Hafter).
  apply Hfalls; [|exact example_next]. apply Hafter. reflexivity.
Defined.

(** ** Local signing, one request after the other *)

Lemma signTransactionLocally_run lib tx w :
  signTransactionLocally lib tx w =
  match local_request lib (localStorage w !! STORAGE_KEY) tx with
  | Return request =>
      let settled :=
        Account_signAndSendTransaction lib (log w ++ [EvGetItem STORAGE_KEY]) request in
      (emits [EvGetItem STORAGE_KEY; EvAccountSignAndSend request settled] w, settled)
  | Throw e => (emits [EvGetItem STORAGE_KEY] w, Throw e)
  end.
Proof.
  unfold signTransactionLocally, local_request, bind, getItem, lift, await, ret.
  rewrite emit_emits.
  destruct (parse_item _) as [keyData|]; cbn [cbind]; [|reflexivity].
  destruct (get_prop keyData (str "privateKey")) as [pk|]; cbn [cbind]; [|reflexivity].
  destruct (KeyPair_fromString lib pk) as [kp|]; cbn [cbind]; [|reflexivity].
  destruct (get_prop keyData (str "accountId")) as [acc|]; cbn [cbind]; [|reflexivity].
  destruct (map_actions (actions tx)) as [acts|]; cbn [cbind]; [|reflexivity].
  cbv zeta. rewrite emit_emits, emits_emits. cbn [app emits log].
  destruct (Account_signAndSendTransaction lib _ _); reflexivity.
Qed.

(** The loop of the batch: the requests signed before it stops, in order,
    and what stopped it. *)
Lemma sign_each_trace lib : forall txs results w w' r,
  sign_each lib txs results w = (w', r) ->
  localStorage w' = localStorage w /\
  exists done tail,
    log w' = log w ++ flat_map signed_events done ++ tail
    /\ Forall2 (fun tx d => local_request lib (localStorage w !! STORAGE_KEY) tx = Return (fst d))
         (take (length done) txs) done
    /\ match r with
       | Return outcomes =>
           outcomes = results ++ map snd done /\ length done = length txs /\ tail = []
       | Throw e =>
           exists tx, txs !! length done = Some tx /\
             (local_request lib (localStorage w !! STORAGE_KEY) tx = Throw e
                /\ tail = [EvGetItem STORAGE_KEY]
              \/ exists request,
                   local_request lib (localStorage w !! STORAGE_KEY) tx = Return request
                   /\ tail = [EvGetItem STORAGE_KEY; EvAccountSignAndSend request (Throw e)])
       end.
Proof.
  induction txs as [|tx txs IH]; intros results w w' r; cbn [sign_each].
  - intros [= <- <-]. split; [reflexivity|]. exists [], []. cbn.
    rewrite !app_nil_r. repeat split; constructor.
  - unfold bind. rewrite signTransactionLocally_run.
    destruct (local_request lib (localStorage w !! STORAGE_KEY) tx) as [request|e] eqn:Hreq.
    + cbv zeta.
      destruct (Account_signAndSendTransaction lib (log w ++ [EvGetItem STORAGE_KEY]) request)
        as [outcome|e] eqn:Hsub.
      * intros H. apply IH in H as (Hst & done & tail & Hlog & Hdone & Hr).
        cbn [emits localStorage log] in Hst, Hlog, Hdone, Hr.
        split; [assumption|]. exists ((request, outcome) :: done), tail.
        split; [|split].
        -- rewrite Hlog. cbn [flat_map signed_events fst snd]. rewrite <- !app_assoc. reflexivity.
        -- cbn [length take]. constructor; assumption.
        -- destruct r as [outcomes|e].
           ++ destruct Hr as (-> & Hlen & ->). cbn [map snd length].
              rewrite <- app_assoc. auto.
           ++ destruct Hr as (tx' & Hk & Hcase). exists tx'. cbn [length]. auto.
      * intros [= <- <-]. split; [reflexivity|].
        exists [], [EvGetItem STORAGE_KEY; EvAccountSignAndSend request (Throw e)].
        cbn. repeat split; [constructor|]. exists tx. split; [reflexivity|]. right. eauto.
    + intros [= <- <-]. split; [reflexivity|].
      exists [], [EvGetItem STORAGE_KEY]. cbn. repeat split; [constructor|].
      exists tx. split; [reflexivity|]. left. auto.
Qed.

Lemma answered_app lib a : forall h b,
  answered lib h (a ++ b) <-> answered lib h a /\ answered lib (h ++ a) b.
Proof.
  induction a as [|ev a IH]; intros h b; cbn [app answered].
  - rewrite app_nil_r. tauto.
  - rewrite IH, <- app_assoc. cbn [app]. tauto.
Qed.

Lemma answered_reads lib evs : forall h,
  Forall (fun ev => ev = EvGetItem STORAGE_KEY) evs -> answered lib h evs.
Proof.
  induction evs as [|ev evs IH]; intros h H; cbn [answered]; [exact I|].
  pose proof (Forall_inv H) as ->. apply Forall_inv_tail in H. auto.
Qed.

Lemma sign_each_answered lib : forall txs results w w' r,
  sign_each lib txs results w = (w', r) ->
  exists evs, log w' = log w ++ evs /\ answered lib (log w) evs.
Proof.
  induction txs as [|tx txs IH]; intros results w w' r; cbn [sign_each].
  - intros [= <- <-]. exists []. rewrite app_nil_r. split; [reflexivity | exact I].
  - unfold bind. rewrite signTransactionLocally_run.
    destruct (local_request lib (localStorage w !! STORAGE_KEY) tx) as [request|e].
    + cbv zeta.
      destruct (Account_signAndSendTransaction lib (log w ++ [EvGetItem STORAGE_KEY]) request)
        as [outcome|e] eqn:Hsub.
      * intros H. apply IH in H as (evs & Hlog & Hans). cbn [emits log] in Hlog, Hans.
        exists ([EvGetItem STORAGE_KEY; EvAccountSignAndSend request (Return outcome)] ++ evs).
        split; [rewrite Hlog, <- app_assoc; reflexivity|].
        apply answered_app. split; [|assumption].
        cbn [answered]. rewrite Hsub. auto.
      * intros [= <- <-]. eexists. split; [reflexivity|]. cbn [answered]. rewrite Hsub. auto.
    + intros [= <- <-]. eexists. split; [reflexivity|]. cbn [answered]. auto.
Qed.

Lemma submissions_app a b : submissions (a ++ b) = submissions a ++ submissions b.
Proof.
  induction a as [|ev a IH]; [reflexivity|].
  destruct ev; cbn [app submissions]; rewrite ?IH; reflexivity.
Qed.

Lemma submissions_reads evs :
  Forall (fun ev => ev = EvGetItem STORAGE_KEY) evs -> submissions evs = [].
Proof. induction 1 as [|ev evs -> _ IH]; [reflexivity|]. exact IH. Qed.

Lemma submissions_signed done :
  submissions (flat_map signed_events done) = map (fun d => (fst d, Return (snd d))) done.
Proof. induction done as [|d done IH]; [reflexivity|]. cbn. rewrite IH. reflexivity. Qed.

(** C7: for an authorized batch, the local submissions made by
    [signAndSendTransactions] are those of the requests in input order,
    each settled before the next is made ([answered]); when all succeed the
    outcomes are returned in that order; when the request at position
    [length done] fails, nothing after it is submitted and the result is
    that error alone, the earlier outcomes not being returned. *)
Theorem signAndSendTransactions_sequential (lib : NearJs)
    (txs : list SignAndSendTransactionParams) (next : M (list FinalExecutionOutcome))
    (w w' : World) (r : completion (list FinalExecutionOutcome)) :
  (forall tx, In tx txs -> verdict w tx = Return true) ->
  signAndSendTransactions lib {| transactions := txs |} next w = (w', r) ->
  exists (done : list (LocalTransaction * FinalExecutionOutcome))
         (failed : list (LocalTransaction * completion FinalExecutionOutcome)),
    submissions (events_since w w') = map (fun d => (fst d, Return (snd d))) done ++ failed
    /\ Forall2 (fun tx d => local_request lib (localStorage w !! STORAGE_KEY) tx = Return (fst d))
         (take (length done) txs) done
    /\ answered lib (log w) (events_since w w')
    /\ match r with
       | Return outcomes =>
           outcomes = map snd done /\ length done = length txs /\ failed = []
       | Throw e =>
           exists tx, txs !! length done = Some tx /\
             (local_request lib (localStorage w !! STORAGE_KEY) tx = Throw e /\ failed = []
              \/ exists request,
                   local_request lib (localStorage w !! STORAGE_KEY) tx = Return request
                   /\ failed = [(request, Throw e)])
       end.
Proof.
  intros Hall Hrun.
  destruct (every_reads txs w) as (reads & Hreads & E).
  unfold signAndSendTransactions, bind in Hrun. cbn [transactions] in Hrun.
  rewrite (surjective_run (every shouldUseAccessKey txs) w), E, (every_true txs w Hall) in Hrun.
  pose proof (sign_each_answered _ _ _ _ _ _ Hrun) as (evs & Hevs & Hans).
  apply sign_each_trace in Hrun as (_ & done & tail & Hlog & Hdone & Hr).
  cbn [emits localStorage log] in Hlog, Hdone, Hr, Hevs, Hans.
  exists done, (submissions tail). split; [|split; [|split]].
  - rewrite <- app_assoc in Hlog. rewrite (events_since_app _ _ _ Hlog).
    rewrite !submissions_app, (submissions_reads _ Hreads), submissions_signed. reflexivity.
  - assumption.
  - rewrite <- app_assoc in Hevs. rewrite (events_since_app _ _ _ Hevs).
    apply answered_app. split; [apply answered_reads|]; assumption.
  - destruct r as [outcomes|e].
    + destruct Hr as (-> & Hlen & ->). auto.
    + destruct Hr as (tx & Hk & [[Hq ->]|(request & Hq & ->)]); exists tx; (split; [assumption|]).
      * left. auto.
      * right. exists request. auto.
Qed.

(** Three authorized requests over a network that rejects the second
    submission: the first outcome is lost, the third request never sent. *)
Example flaky_batch_example :
  let run := signAndSendTransactions flaky_lib {| transactions := example_batch |}
               example_next_batch app_world in
  snd run = Throw (Rejected (str "network"))
  /\ map snd (submissions (log (fst run)))
     = [Return (JString (str "app.near")); Throw (Rejected (str "network"))].
Proof. vm_compute. split; reflexivity. Qed.

Lemma signAndSendTransactions_sequential_witness :
  let run := signAndSendTransactions flaky_lib {| transactions := example_batch |}
               example_next_batch app_world in
  exists done failed,
    submissions (events_since app_world (fst run))
    = map (fun d => (fst d, Return (snd d))) done ++ failed
    /\ Forall2 (fun tx d => local_request flaky_lib (localStorage app_world !! STORAGE_KEY) tx
                            = Return (fst d))
         (take (length done) example_batch) done
    /\ answered flaky_lib (log app_world) (events_since app_world (fst run))
    /\ match snd run with
       | Return outcomes =>
           outcomes = map snd done /\ length done = length example_batch /\ failed = []
       | Throw e =>
           exists tx, example_batch !! length done = Some tx /\
             (local_request flaky_lib (localStorage app_world !! STORAGE_KEY) tx = Throw e
                /\ failed = []
              \/ exists request,
                   local_request flaky_lib (localStorage app_world !! STORAGE_KEY) tx
                   = Return request
                   /\ failed = [(request, Throw e)])
       end.
Proof.
  cbv zeta.
  apply (signAndSendTransactions_sequential flaky_lib example_batch example_next_batch app_world).
  - intros tx [<-|[<-|[<-|[]]]]; vm_compute; reflexivity.
  - apply surjective_run.
Defined.

(** ** Issuing a credential *)

Lemma createAccessKey_run lib params w :
  createAccessKey lib params w =
  match getAccounts (wallet params) (log w) with
  | Throw e => (emits [EvGetAccounts (Throw e)] w, Throw e)
  | Return accounts =>
      let asked := [EvGetAccounts (Return accounts); EvConsoleLog (manifest_id (wallet params))] in
      let keyPair := KeyPair_fromRandom lib (log w ++ asked) in
      let request :=
        add_key_transaction (first_accountId accounts) (KeyPair_getPublicKey keyPair)
          (contractId params) (methodNames params)
          (or_default (allowance params) DEFAULT_ALLOWANCE) in
      let settled :=
        wallet_signAndSendTransaction (wallet params)
          (log w ++ asked ++ [EvFromRandom keyPair]) request in
      match settled with
      | Throw e =>
          (emits (asked ++ [EvFromRandom keyPair; EvWalletSignAndSend request (Throw e)]) w,
           Throw e)
      | Return result =>
          let text := stored_text (first_accountId accounts) keyPair params in
          ({| localStorage := <[STORAGE_KEY := text]> (localStorage w);
              log := log w ++ asked ++ [EvFromRandom keyPair;
                                        EvWalletSignAndSend request (Return result);
                                        EvSetItem STORAGE_KEY text] |},
           Return result)
      end
  end.
Proof.
  unfold createAccessKey, bind, await, console_log, fromRandom, setItem, ret, emit, emits,
    stored_text.
  cbn [log localStorage].
  destruct (getAccounts (wallet params) (log w)) as [accounts|e]; [|reflexivity].
  cbv zeta. rewrite <- !app_assoc. cbn [app].
  destruct (wallet_signAndSendTransaction _ _ _) as [result|e]; cbn [log localStorage];
    rewrite <- ?app_assoc; reflexivity.
Qed.

(** C5: when the wallet's submission of the [AddKey] transaction fails with
    [e], [createAccessKey] fails with [e] and [localStorage] is as it was. *)
Theorem createAccessKey_registration_failure (lib : NearJs) (params : CreateAccessKeyParams)
    (w w' : World) (r : completion FinalExecutionOutcome)
    (request : WalletTransaction) (e : JsError) :
  createAccessKey lib params w = (w', r) ->
  In (EvWalletSignAndSend request (Throw e)) (events_since w w') ->
  r = Throw e /\ localStorage w' = localStorage w.
Proof.
  rewrite createAccessKey_run.
  destruct (getAccounts (wallet params) (log w)) as [accounts|e0].
  - cbv zeta. destruct (wallet_signAndSendTransaction _ _ _) as [result|e0].
    + intros [= <- <-]. unfold events_since. cbn [log]. rewrite drop_app_length.
      cbn [app In]. intros H. repeat destruct H as [H|H]; try discriminate. destruct H.
    + intros [= <- <-]. rewrite events_since_emits.
      cbn [app In]. intros H. repeat destruct H as [H|H]; try discriminate; [|destruct H].
      injection H as _ ->. auto.
  - intros [= <- <-]. rewrite events_since_emits.
    cbn [In]. intros [H|[]]. discriminate.
Qed.

Lemma createAccessKey_registration_failure_witness :
  let run := createAccessKey example_lib (example_params declining_wallet None) app_world in
  snd run = Throw (Rejected (str "declined"))
  /\ localStorage (fst run) = localStorage app_world.
Proof.
  cbv zeta.
  apply (createAccessKey_registration_failure example_lib
           (example_params declining_wallet None) app_world _ _
           (add_key_transaction (Some (str "alice.near")) (str "ed25519:PUBLIC") (str "app.near")
              (Some [str "vote"]) DEFAULT_ALLOWANCE)).
  - apply surjective_run.
  - vm_compute. right. right. right. left. reflexivity.
Defined.

Lemma number_free_strings l : forallb number_free (map JString l) = true.
Proof. induction l; cbn; auto. Qed.

Lemma access_key_record_number_free owner pk c ms a :
  number_free (access_key_record owner pk c ms a) = true.
Proof. destruct owner, ms; cbn; rewrite ?number_free_strings; reflexivity. Qed.

Lemma access_key_record_fields owner pk c ms a :
  let record := access_key_record owner pk c ms a in
  get_prop record (str "accountId") = Return (JString <$> owner)
  /\ get_prop record (str "privateKey") = Return (Some (JString pk))
  /\ get_prop record (str "contractId") = Return (Some (JString c))
  /\ get_prop record (str "allowedMethods") = Return ((fun l => JArray (map JString l)) <$> ms)
  /\ get_prop record (str "allowance")
     = Return (Some (JString (or_default (Some a) DEFAULT_ALLOWANCE))).
Proof. destruct owner, ms; repeat split; vm_compute; reflexivity. Qed.


(** What was written is what is read back. *)
Lemma stored_text_parses owner keyPair params :
  JSON_parse (stored_text owner keyPair params)
  = Return (access_key_record owner (KeyPair_toString keyPair) (contractId params)
              (methodNames params) (or_default (allowance params) DEFAULT_ALLOWANCE)).
Proof. apply JSON_parse_stringify, access_key_record_number_free. Qed.






(** C4: with a wallet that has no account, [createAccessKey] does not
    fail: it asks the wallet to sign for an [undefined] receiver and stores
    a record without [accountId]. *)
Example createAccessKey_without_account :
  let run := createAccessKey example_lib (example_params empty_wallet None) empty_world in
  snd run = Return JNull
  /\ In (EvWalletSignAndSend
           {| wallet_receiverId := None;
              wallet_actions :=
                [AddKey {| publicKey := str "ed25519:PUBLIC";
                           permission :=
                             {| permission_receiverId := str "app.near";
                                permission_methodNames := [str "vote"];
                                permission_allowance := DEFAULT_ALLOWANCE |} |}] |}
           (Return JNull))
        (log (fst run))
  /\ cbind (parse_item (localStorage (fst run) !! STORAGE_KEY))
       (fun record => get_prop record (str "accountId"))
     = Return None
  /\ verdict (fst run) vote_request = Return true
  /\ cbind (local_request example_lib (localStorage (fst run) !! STORAGE_KEY) vote_request)
       (fun request => Return (local_accountId request))
     = Return None.
Proof.
  cbv zeta. repeat split; try (vm_compute; reflexivity).
  vm_compute. right. right. right. left. reflexivity.
Qed.

(** ** Issuing, then checking *)

Lemma createAccessKey_stored lib params w w' result :
  createAccessKey lib params w = (w', Return result) ->
  exists owner keyPair, localStorage w' !! STORAGE_KEY = Some (stored_text owner keyPair params).
Proof.
  rewrite createAccessKey_run.
  destruct (getAccounts (wallet params) (log w)) as [accounts|e0]; [|discriminate].
  cbv zeta. destruct (wallet_signAndSendTransaction _ _ _) as [result'|e0]; [|discriminate].
  intros [= <- <-]. eexists _, _. cbn [localStorage]. apply lookup_insert_eq.
Qed.

Lemma verdict_of_stored w owner keyPair params tx :
  localStorage w !! STORAGE_KEY = Some (stored_text owner keyPair params) ->
  verdict w tx =
  if string_eqb (receiverId tx) (contractId params)
  then check_actions
         (access_key_record owner (KeyPair_toString keyPair) (contractId params)
            (methodNames params) (or_default (allowance params) DEFAULT_ALLOWANCE))
         (actions tx)
  else Return false.
Proof.
  intros Hitem. unfold verdict. rewrite shouldUseAccessKey_run, Hitem.
  pose proof (stored_text_parses owner keyPair params) as Hparse.
  destruct (stored_text owner keyPair params) as [|c text] eqn:E; [discriminate|].
  cbn [snd]. unfold check_key. rewrite Hparse. cbn [cbind].
  pose proof (access_key_record_fields owner (KeyPair_toString keyPair) (contractId params)
                (methodNames params) (or_default (allowance params) DEFAULT_ALLOWANCE))
    as (_ & _ & Hc & _).
  rewrite Hc. cbn [cbind strict_equal_string].
  destruct (string_eqb (receiverId tx) (contractId params)); reflexivity.
Qed.


(** X2: after [createAccessKey] has succeeded with [methodNames] given,
    [shouldUseAccessKey] returns, and returns [true] exactly for the
    requests to [contractId] whose actions are all [FunctionCall]s of one
    of the [methodNames]. *)
Theorem createAccessKey_then_authorized (lib : NearJs) (params : CreateAccessKeyParams)
    (w w' : World) (result : FinalExecutionOutcome) (tx : SignAndSendTransactionParams)
    (methods : list (list N)) :
  createAccessKey lib params w = (w', Return result) ->
  methodNames params = Some methods ->
  exists b, verdict w' tx = Return b /\
    (b = true <->
     receiverId tx = contractId params /\
     Forall (fun a => exists p m, a = FunctionCall p /\ methodName p = Some m /\ In m methods)
       (actions tx)).
Proof.
  intros Hrun Hsome.
  apply createAccessKey_stored in Hrun as (owner & keyPair & Hitem).
  rewrite (verdict_of_stored _ _ _ _ _ Hitem).
  destruct (string_eqb (receiverId tx) (contractId params)) eqn:E.
  - apply string_eqb_eq in E.
    pose proof (access_key_record_fields owner (KeyPair_toString keyPair) (contractId params)
                  (methodNames params) (or_default (allowance params) DEFAULT_ALLOWANCE))
      as (_ & _ & _ & Hm & _).
    cbv zeta in Hm. rewrite Hsome in Hm |- *. cbn [fmap option_fmap option_map] in Hm.
    unfold access_key_record, object_literal in Hm |- *. cbn [get_prop] in Hm.
    injection Hm as Hm.
    destruct (check_actions_scope _ methods (actions tx) Hm) as (b & Hb & Hiff).
    exists b. split; [assumption|]. rewrite Hiff. tauto.
  - exists false. split; [reflexivity|]. split; [discriminate|].
    intros [Heq _]. apply string_eqb_eq in Heq. congruence.
Qed.


Lemma createAccessKey_then_authorized_witness :
  let w' := fst (createAccessKey example_lib (example_params example_wallet None) empty_world) in
  exists b, verdict w' vote_request = Return b /\
    (b = true <->
     receiverId vote_request = str "app.near" /\
     Forall (fun a => exists p m, a = FunctionCall p /\ methodName p = Some m
                                  /\ In m [str "vote"])
       (actions vote_request)).
Proof.
  cbv zeta.
  apply (createAccessKey_then_authorized example_lib (example_params example_wallet None)
           empty_world _ JNull vote_request [str "vote"]); vm_compute; reflexivity.
Defined.

(** The batch example of the specification: two authorized requests are
    both signed locally, in order. *)
Example batch_example :
  let run := signAndSendTransactions example_lib
               {| transactions := [vote_request; vote_request] |} example_next_batch app_world in
  snd run = Return [JString (str "app.near"); JString (str "app.near")]
  /\ map (fun s => (local_receiverId (fst s), snd s)) (submissions (log (fst run)))
     = [(str "app.near", Return (JString (str "app.near")));
        (str "app.near", Return (JString (str "app.near")))].
Proof. vm_compute. split; reflexivity. Qed.

(** ** The hook for one request *)

Lemma read_AccessKeyData_all v C :
  read_AccessKeyData v = Some C ->
  exists ms, v = JObject ms
    /\ lookup_member (str "accountId") ms = Some (JString (key_accountId C))
    /\ lookup_member (str "privateKey") ms = Some (JString (key_privateKey C))
    /\ lookup_member (str "contractId") ms = Some (JString (key_contractId C))
    /\ lookup_member (str "allowedMethods") ms
       = Some (JArray (map JString (key_allowedMethods C))).
Proof.
  unfold read_AccessKeyData. destruct v as [| | | | |ms]; try discriminate.
  intros H. exists ms. split; [reflexivity|].
  destruct (lookup_member (str "accountId") ms) as [[]|]; try discriminate.
  destruct (lookup_member (str "privateKey") ms) as [[]|]; try discriminate.
  destruct (lookup_member (str "contractId") ms) as [[]|]; try discriminate.
  destruct (lookup_member (str "allowedMethods") ms) as [[| | | |l|]|]; try discriminate.
  cbn in H. destruct (as_strings l) as [m|] eqn:El; [|discriminate].
  destruct (lookup_member (str "allowance") ms) as [[]|]; try discriminate.
  cbn in H. simplify_eq. cbn. apply as_strings_map in El. subst. auto.
Qed.

Lemma verdict_storage w1 w2 tx :
  localStorage w1 !! STORAGE_KEY = localStorage w2 !! STORAGE_KEY ->
  verdict w1 tx = verdict w2 tx.
Proof. unfold verdict. rewrite !shouldUseAccessKey_run. intros ->. repeat case_match; reflexivity. Qed.

(** The verdict under a stored credential (the content of C1, for reuse). *)
Lemma verdict_held w C tx :
  holds_credential w C ->
  exists b, verdict w tx = Return b /\ (b = true <-> in_scope C tx).
Proof.
  unfold verdict. rewrite shouldUseAccessKey_run.
  intros (text & v & Hitem & Hparse & Hread). rewrite Hitem.
  destruct text as [|c text]; [discriminate|]. cbn [snd]. unfold check_key.
  rewrite Hparse. cbn [cbind].
  apply read_AccessKeyData_fields in Hread as (ms & -> & Hc & Hm).
  cbn [get_prop cbind]. rewrite Hc. cbn [strict_equal_string]. unfold in_scope.
  destruct (string_eqb (receiverId tx) (key_contractId C)) eqn:E; cbn [negb].
  - apply string_eqb_eq in E.
    destruct (check_actions_scope ms (key_allowedMethods C) (actions tx) Hm) as (b & Hb & Hiff).
    exists b. split; [assumption|]. rewrite Hiff. tauto.
  - exists false. split; [reflexivity|]. split; [discriminate|].
    intros [Heq _]. apply string_eqb_eq in Heq. congruence.
Qed.

(** X3: with a credential [C] stored, [signAndSendTransaction] hands a
    request in [C]'s scope to [signTransactionLocally] and every other
    request to the fallback [next]; either runs after the two reads of the
    check, on an unchanged storage. *)
Theorem signAndSendTransaction_routes (lib : NearJs) (w : World) (C : AccessKeyData)
    (tx : SignAndSendTransactionParams) (next : M FinalExecutionOutcome) :
  holds_credential w C ->
  let checked := emits [EvGetItem STORAGE_KEY; EvGetItem STORAGE_KEY] w in
  (in_scope C tx ->
     signAndSendTransaction lib tx next w = signTransactionLocally lib tx checked)
  /\ (~ in_scope C tx -> signAndSendTransaction lib tx next w = next checked).
Proof.
  intros Hheld. cbv zeta.
  destruct (verdict_held w C tx Hheld) as (b & Hb & Hiff).
  pose proof Hheld as (text & v & Hitem & Hparse & _).
  pose proof (shouldUseAccessKey_run tx w) as Hrun. rewrite Hitem in Hrun.
  destruct text as [|c text]; [discriminate|].
  unfold verdict in Hb. rewrite Hrun in Hb. cbn [snd] in Hb.
  unfold signAndSendTransaction, bind. rewrite Hrun, Hb. split; intros Hs.
  - apply Hiff in Hs. subst b. reflexivity.
  - destruct b; [|reflexivity]. exfalso. apply Hs, Hiff. reflexivity.
Qed.

Lemma vote_in_scope gas' deposit' : in_scope example_credential (call_with gas' deposit').
Proof.
  split; [reflexivity|]. repeat constructor. eexists _, _.
  split; [reflexivity|]. split; [reflexivity|]. left. reflexivity.
Qed.

Lemma signAndSendTransaction_routes_witness :
  let checked := emits [EvGetItem STORAGE_KEY; EvGetItem STORAGE_KEY] app_world in
  in_scope example_credential (call_with None None)
  /\ signAndSendTransaction example_lib (call_with None None) example_next app_world
     = signTransactionLocally example_lib (call_with None None) checked.
Proof.
  cbv zeta. split; [apply vote_in_scope|].
  apply (signAndSendTransaction_routes example_lib app_world example_credential
           (call_with None None) example_next example_credential_held).
  apply vote_in_scope.
Defined.

(** ** What is signed locally *)

Lemma local_request_held lib w C tx :
  holds_credential w C ->
  local_request lib (localStorage w !! STORAGE_KEY) tx =
  cbind (KeyPair_fromString lib (Some (JString (key_privateKey C)))) (fun keyPair =>
  cbind (map_actions (actions tx)) (fun acts =>
  Return {| local_rpcUrl := rpcUrl_of (network tx);
            local_accountId := Some (JString (key_accountId C));
            local_keyPair := keyPair; local_receiverId := receiverId tx;
            local_actions := acts |})).
Proof.
  intros (text & v & Hitem & Hparse & Hread). rewrite Hitem.
  unfold local_request, parse_item. rewrite Hparse. cbn [cbind].
  apply read_AccessKeyData_all in Hread as (ms & -> & Ha & Hp & _).
  cbn [get_prop cbind]. rewrite Hp, Ha. reflexivity.
Qed.

(** What [functionCall] returns or throws. *)
Lemma functionCall_run m a g d :
  (a <> JNull
   /\ functionCall m a g d
      = Return {| native_methodName := m; native_args := a; native_gas := g;
                  native_deposit := d |})
  \/ (a = JNull /\ functionCall m a g d = Throw TypeError).
Proof. destruct a; [right; split; reflexivity | left; split; [discriminate | reflexivity]..]. Qed.

(** The callback on one [FunctionCall]: the amounts first, then [args]. *)
Lemma native_action_run p :
  (bad_amount p /\ native_action (FunctionCall p) = Throw SyntaxError)
  \/ (~ bad_amount p /\ args p = JNull /\ native_action (FunctionCall p) = Throw TypeError)
  \/ (exists n, translates (FunctionCall p) n /\ native_action (FunctionCall p) = Return n).
Proof.
  unfold bad_amount, translates, BigInt. cbn [native_action]. unfold BigInt.
  destruct (StringToBigInt (or_default (gas p) _)) as [g|] eqn:Hg; cbn [cbind];
    [|left; split; [left|]; reflexivity].
  destruct (StringToBigInt (or_default (deposit p) _)) as [d|] eqn:Hd; cbn [cbind];
    [|left; split; [right|]; reflexivity].
  right. destruct (functionCall_run (methodName p) (args p) g d) as [[Ha ->]|[Ha ->]].
  - right. eexists. split; [|reflexivity]. exists p. cbn.
    repeat split; try reflexivity; try assumption; rewrite ?Hg, ?Hd; reflexivity.
  - left. split; [intros [H|H]; discriminate|]. split; [assumption | reflexivity].
Qed.

Lemma map_actions_translates acts : forall ns,
  map_actions acts = Return ns -> Forall2 translates acts ns.
Proof.
  induction acts as [|a acts IH]; intros ns; cbn [map_actions].
  - intros [= <-]. constructor.
  - destruct a as [p| |]; try discriminate.
    destruct (native_action_run p) as [[_ ->]|[(_ & _ & ->)|(n & Hn & ->)]]; try discriminate.
    cbn [cbind]. destruct (map_actions acts) as [ns'|]; [|discriminate]. cbn [cbind].
    intros [= <-]. constructor; auto.
Qed.

Lemma translates_translatable a n : translates a n -> translatable a.
Proof.
  intros (p & -> & Ha & _ & _ & Hg & Hd). exists p. split; [reflexivity|]. split; [|assumption].
  unfold bad_amount, BigInt in *. intros [Hb|Hb]; rewrite Hb in *; discriminate.
Qed.

(** The translation succeeds exactly on the lists of translatable actions. *)
Lemma map_actions_returns acts :
  (exists ns, map_actions acts = Return ns) <-> Forall translatable acts.
Proof.
  split.
  - intros [ns H]. apply map_actions_translates in H.
    induction H as [|a n acts ns Ht _ IH]; constructor; [|assumption].
    eapply translates_translatable; eassumption.
  - induction 1 as [|a acts (p & -> & Hgood & Hargs) _ [ns IH]]; cbn [map_actions]; [eauto|].
    destruct (native_action_run p) as [[Hbad _]|[(_ & Hnull & _)|(n & _ & ->)]];
      [contradiction.. |]. rewrite IH. cbn [cbind]. eauto.
Qed.

(** [map] stops at the first action its callback throws on. *)
Lemma map_actions_first_throw pre a post e :
  Forall translatable pre -> native_action a = Throw e ->
  map_actions (pre ++ a :: post) = Throw e.
Proof.
  intros Hpre Ha. induction Hpre as [|b pre (p & -> & Hgood & Hargs) _ IH]; cbn [app map_actions].
  - rewrite Ha. reflexivity.
  - destruct (native_action_run p) as [[Hbad _]|[(_ & Hnull & _)|(n & _ & ->)]];
      [contradiction.. |]. cbn [cbind]. rewrite IH. reflexivity.
Qed.

Lemma rpcUrl_of_mainnet net :
  rpcUrl_of net = MAINNET_RPC <-> net = Some (str "mainnet").
Proof.
  unfold rpcUrl_of. destruct net as [n|].
  - destruct (string_eqb n (str "mainnet")) eqn:E.
    + apply string_eqb_eq in E. subst. split; reflexivity.
    + split; [discriminate|]. intros [= ->]. rewrite string_eqb_refl in E. discriminate.
  - split; discriminate.
Qed.

Lemma rpcUrl_of_decide net :
  rpcUrl_of net = if bool_decide (net = Some (str "mainnet")) then MAINNET_RPC else TESTNET_RPC.
Proof.
  case_bool_decide as Hn.
  - apply rpcUrl_of_mainnet. assumption.
  - unfold rpcUrl_of. destruct net as [n|]; [|reflexivity].
    destruct (string_eqb n (str "mainnet")) eqn:E; [|reflexivity].
    apply string_eqb_eq in E. subst. contradiction.
Qed.

(** X4: with a credential [C] stored and a key string the library accepts,
    for a request all of whose actions are [FunctionCall]s with amounts
    [BigInt] accepts and [args] other than [null], [signTransactionLocally]
    reads the slot once and submits exactly one transaction: signed with
    [C]'s [privateKey] for [C]'s [accountId], sent to the request's
    [receiverId] through the mainnet RPC only when [network] is the string
    [mainnet] and through the testnet RPC otherwise, with the actions
    translated one to one in order; the result is the network's settlement
    of that submission. *)
Theorem signTransactionLocally_submits (lib : NearJs) (w : World) (C : AccessKeyData)
    (tx : SignAndSendTransactionParams) (keyPair : KeyPair) :
  holds_credential w C ->
  KeyPair_fromString lib (Some (JString (key_privateKey C))) = Return keyPair ->
  Forall translatable (actions tx) ->
  exists acts,
    Forall2 translates (actions tx) acts
    /\ let request :=
         {| local_rpcUrl := if bool_decide (network tx = Some (str "mainnet"))
                            then MAINNET_RPC else TESTNET_RPC;
            local_accountId := Some (JString (key_accountId C));
            local_keyPair := keyPair; local_receiverId := receiverId tx;
            local_actions := acts |} in
       let settled :=
         Account_signAndSendTransaction lib (log w ++ [EvGetItem STORAGE_KEY]) request in
       signTransactionLocally lib tx w
       = (emits [EvGetItem STORAGE_KEY; EvAccountSignAndSend request settled] w, settled).
Proof.
  intros Hheld Hkey Hacts. apply map_actions_returns in Hacts as [acts Hacts].
  exists acts. split; [apply map_actions_translates; assumption|]. cbv zeta.
  rewrite signTransactionLocally_run, (local_request_held lib w C tx Hheld), Hkey, Hacts.
  cbn [cbind]. cbv zeta. rewrite rpcUrl_of_decide. reflexivity.
Qed.

Lemma vote_translatable gas' deposit' :
  ~ bad_amount {| methodName := Some (str "vote"); args := JObject []; gas := gas';
                  deposit := deposit' |} ->
  Forall translatable (actions (call_with gas' deposit')).
Proof.
  intros H. repeat constructor. eexists. split; [reflexivity|]. split; [exact H | discriminate].
Qed.

Lemma signTransactionLocally_submits_witness :
  let tx := call_with None (Some (str "5")) in
  exists acts,
    Forall2 translates (actions tx) acts
    /\ let request :=
         {| local_rpcUrl := if bool_decide (network tx = Some (str "mainnet"))
                            then MAINNET_RPC else TESTNET_RPC;
            local_accountId := Some (JString (str "alice.near"));
            local_keyPair := {| KeyPair_toString := str "ed25519:SECRET";
                                KeyPair_getPublicKey := str "ed25519:PUBLIC" |};
            local_receiverId := str "app.near";
            local_actions := acts |} in
       let settled :=
         Account_signAndSendTransaction example_lib
           (log app_world ++ [EvGetItem STORAGE_KEY]) request in
       signTransactionLocally example_lib tx app_world
       = (emits [EvGetItem STORAGE_KEY; EvAccountSignAndSend request settled] app_world, settled).
Proof.
  cbv zeta.
  apply (signTransactionLocally_submits example_lib app_world example_credential
           (call_with None (Some (str "5")))
           {| KeyPair_toString := str "ed25519:SECRET";
              KeyPair_getPublicKey := str "ed25519:PUBLIC" |}
           example_credential_held).
  - vm_compute. reflexivity.
  - apply vote_translatable. intros [H|H]; vm_compute in H; discriminate.
Defined.

(** The run of the witness: five units are deposited over mainnet. *)
Example signTransactionLocally_example :
  submissions (log (fst (signTransactionLocally example_lib (call_with None (Some (str "5")))
                           app_world)))
  = [({| local_rpcUrl := MAINNET_RPC; local_accountId := Some (JString (str "alice.near"));
         local_keyPair := {| KeyPair_toString := str "ed25519:SECRET";
                             KeyPair_getPublicKey := str "ed25519:PUBLIC" |};
         local_receiverId := str "app.near";
         local_actions :=
           [{| native_methodName := Some (str "vote"); native_args := JObject [];
               native_gas := 30000000000000; native_deposit := 5 |}] |},
      Return (JString (str "app.near")))].
Proof. vm_compute. reflexivity. Qed.

Lemma BigInt_defaults :
  BigInt (str "30000000000000") = Return 30000000000000%Z /\ BigInt (str "0") = Return 0%Z.
Proof. split; vm_compute; reflexivity. Qed.

(** The default amounts: thirty teragas, no deposit. *)
Lemma default_amounts p n :
  translates (FunctionCall p) n ->
  (falsy (gas p) = true -> native_gas n = 30000000000000%Z)
  /\ (falsy (deposit p) = true -> native_deposit n = 0%Z).
Proof.
  destruct BigInt_defaults as [Hg0 Hd0].
  intros (p' & [= <-] & _ & _ & _ & Hg & Hd). split; intros Hf.
  - destruct (gas p) as [[|c s]|]; try discriminate; cbn [or_default] in Hg;
      rewrite Hg0 in Hg; congruence.
  - destruct (deposit p) as [[|c s]|]; try discriminate; cbn [or_default] in Hd;
      rewrite Hd0 in Hd; congruence.
Qed.

(** X5: the translation of the actions keeps their number and order, the
    [methodName] and the [args]; a missing or empty [gas] becomes
    30000000000000 and a missing or empty [deposit] becomes 0. *)
Theorem map_actions_defaults (acts : list Action) (ns : list NativeFunctionCall) :
  map_actions acts = Return ns ->
  Forall2 (fun a n => exists p, a = FunctionCall p
             /\ native_methodName n = methodName p /\ native_args n = args p
             /\ (falsy (gas p) = true -> native_gas n = 30000000000000%Z)
             /\ (falsy (deposit p) = true -> native_deposit n = 0%Z)) acts ns.
Proof.
  intros H. apply map_actions_translates in H.
  eapply Forall2_impl; [exact H|]. intros a n Ht.
  pose proof Ht as (p & -> & _ & Hm & Ha & _).
  destruct (default_amounts p n Ht) as [Hg Hd]. exists p. auto.
Qed.

Lemma map_actions_defaults_witness :
  let ns := [{| native_methodName := Some (str "vote"); native_args := JObject [];
                native_gas := 30000000000000; native_deposit := 0 |}] in
  map_actions (actions vote_request) = Return ns
  /\ Forall2 (fun a n => exists p, a = FunctionCall p
               /\ native_methodName n = methodName p /\ native_args n = args p
               /\ (falsy (gas p) = true -> native_gas n = 30000000000000%Z)
               /\ (falsy (deposit p) = true -> native_deposit n = 0%Z))
       (actions vote_request) ns.
Proof.
  cbv zeta. split; [vm_compute; reflexivity|].
  apply (map_actions_defaults (actions vote_request)). vm_compute. reflexivity.
Defined.

(** The hook on an authorized request whose translation throws. *)
Lemma signAndSendTransaction_untranslated lib w C tx next keyPair e :
  holds_credential w C ->
  in_scope C tx ->
  KeyPair_fromString lib (Some (JString (key_privateKey C))) = Return keyPair ->
  map_actions (actions tx) = Throw e ->
  signAndSendTransaction lib tx next w
  = (emits [EvGetItem STORAGE_KEY; EvGetItem STORAGE_KEY; EvGetItem STORAGE_KEY] w, Throw e).
Proof.
  intros Hheld Hscope Hkey Hthrow.
  destruct (verdict_held w C tx Hheld) as (b & Hb & Hiff).
  apply Hiff in Hscope as Htrue. subst b.
  unfold signAndSendTransaction, bind.
  pose proof (shouldUseAccessKey_run tx w) as Hrun.
  pose proof Hheld as (text & v & Hitem & Hparse & Hread).
  rewrite Hitem in Hrun. destruct text as [|c text]; [discriminate|].
  rewrite Hrun. unfold verdict in Hb. rewrite Hrun in Hb. cbn [snd] in Hb. rewrite Hb.
  rewrite signTransactionLocally_run. cbn [emits localStorage].
  rewrite (local_request_held lib w C tx Hheld), Hkey. cbn [cbind].
  rewrite Hthrow. cbn [cbind]. rewrite emits_emits. reflexivity.
Qed.

(** X6: an authorized request with an action the translation refuses is
    neither submitted nor handed to the fallback: [signAndSendTransaction]
    rejects after three reads of the slot, with the error of the first such
    action: [SyntaxError] if [BigInt] refuses its [gas] or its [deposit]
    (the amounts are converted before [functionCall] runs, so also when its
    [args] is [null]), [TypeError] if its amounts are accepted and its
    [args] is [null]. *)
Theorem untranslatable_action_rejects (lib : NearJs) (w : World) (C : AccessKeyData)
    (tx : SignAndSendTransactionParams) (next : M FinalExecutionOutcome)
    (keyPair : KeyPair) (pre post : list Action) (p : FunctionCallParams) :
  holds_credential w C ->
  in_scope C tx ->
  KeyPair_fromString lib (Some (JString (key_privateKey C))) = Return keyPair ->
  actions tx = pre ++ FunctionCall p :: post ->
  Forall translatable pre ->
  let rejects e :=
    signAndSendTransaction lib tx next w
    = (emits [EvGetItem STORAGE_KEY; EvGetItem STORAGE_KEY; EvGetItem STORAGE_KEY] w, Throw e) in
  (bad_amount p -> rejects SyntaxError)
  /\ (~ bad_amount p -> args p = JNull -> rejects TypeError).
Proof.
  intros Hheld Hscope Hkey Hacts Hpre. cbv zeta.
  split; [intros Hbad | intros Hgood Hnull];
    apply (signAndSendTransaction_untranslated lib w C tx next keyPair _ Hheld Hscope Hkey);
    rewrite Hacts; apply map_actions_first_throw; try assumption;
    destruct (native_action_run p) as [[Hb H]|[(Hb & Ha & H)|(n & Ht & H)]];
    try assumption; try contradiction.
  - apply translates_translatable in Ht as (q & [= <-] & Hq & _). contradiction.
  - destruct Ht as (q & [= <-] & Hq & _). contradiction.
Qed.

Lemma untranslatable_action_rejects_witness :
  let rejects tx e :=
    signAndSendTransaction example_lib tx example_next app_world
    = (emits [EvGetItem STORAGE_KEY; EvGetItem STORAGE_KEY; EvGetItem STORAGE_KEY] app_world,
       Throw e) in
  rejects fractional_gas_request SyntaxError /\ rejects null_args_request TypeError.
Proof.
  cbv zeta. split.
  - apply (untranslatable_action_rejects example_lib app_world example_credential
             fractional_gas_request example_next
             {| KeyPair_toString := str "ed25519:SECRET";
                KeyPair_getPublicKey := str "ed25519:PUBLIC" |}
             [] []
             {| methodName := Some (str "vote"); args := JObject [];
                gas := Some (str "1.5"); deposit := None |}
             example_credential_held (vote_in_scope _ _)).
    + vm_compute. reflexivity.
    + reflexivity.
    + constructor.
    + left. vm_compute. reflexivity.
  - apply (untranslatable_action_rejects example_lib app_world example_credential
             null_args_request example_next
             {| KeyPair_toString := str "ed25519:SECRET";
                KeyPair_getPublicKey := str "ed25519:PUBLIC" |}
             []
             [FunctionCall {| methodName := Some (str "vote"); args := JObject [];
                              gas := Some (str "1.5"); deposit := None |}]
             {| methodName := Some (str "vote"); args := JNull; gas := None; deposit := None |}
             example_credential_held).
    + split; [reflexivity|]. repeat constructor; eexists _, _;
        (split; [reflexivity|]; split; [reflexivity|]; left; reflexivity).
    + vm_compute. reflexivity.
    + reflexivity.
    + constructor.
    + intros [H|H]; vm_compute in H; discriminate.
    + reflexivity.
Defined.

Lemma map_actions_throws acts e :
  map_actions acts = Throw e ->
  (e = SyntaxError /\ exists p, In (FunctionCall p) acts /\ bad_amount p)
  \/ (e = TypeError /\ exists p, In (FunctionCall p) acts /\ args p = JNull)
  \/ exists a, In a acts /\ ~ is_FunctionCall a
               /\ e = Error (str "Unsupported action type: " ++ action_type a).
Proof.
  induction acts as [|a acts IH]; cbn [map_actions]; [discriminate|].
  destruct (native_action a) as [n|e'] eqn:Hn; cbn [cbind].
  - destruct (map_actions acts) as [ns|e'] eqn:Hm; cbn [cbind]; [discriminate|].
    intros [= ->].
    destruct (IH eq_refl) as [(-> & p & Hin & H)|[(-> & p & Hin & H)|(a' & Hin & Hno & ->)]].
    + left. split; [reflexivity|]. exists p. split; [right; assumption | assumption].
    + right. left. split; [reflexivity|]. exists p. split; [right; assumption | assumption].
    + right. right. exists a'. split; [right; assumption | auto].
  - intros [= ->]. destruct a as [p| |].
    + destruct (native_action_run p) as [[Hb H]|[(Hb & Ha & H)|(n & Ht & H)]];
        rewrite H in Hn; [| |discriminate]; injection Hn as <-.
      * left. split; [reflexivity|]. exists p. split; [left; reflexivity | assumption].
      * right. left. split; [reflexivity|]. exists p. split; [left; reflexivity | assumption].
    + right. right. cbn [native_action] in Hn. injection Hn as <-. eexists.
      split; [left; reflexivity|]. split; [intros [p [=]] | reflexivity].
    + right. right. cbn [native_action] in Hn. injection Hn as <-. eexists.
      split; [left; reflexivity|]. split; [intros [p [=]] | reflexivity].
Qed.

(** When the check has said [true], the stored text parses to an object. *)
Lemma verdict_true_object w tx :
  verdict w tx = Return true ->
  exists c text ms,
    localStorage w !! STORAGE_KEY = Some (c :: text)
    /\ JSON_parse (c :: text) = Return (JObject ms)
    /\ check_actions (JObject ms) (actions tx) = Return true.
Proof.
  unfold verdict. rewrite shouldUseAccessKey_run.
  destruct (localStorage w !! STORAGE_KEY) as [[|c text]|]; try discriminate.
  cbn [snd]. unfold check_key.
  destruct (JSON_parse (c :: text)) as [key|] eqn:Hp; [|discriminate]. cbn [cbind].
  destruct key as [| | | | |ms]; cbn [get_prop cbind strict_equal_string negb]; try discriminate.
  destruct (negb _); [discriminate|]. intros H. eauto 6.
Qed.

(** X7: once [shouldUseAccessKey] has said [true], [signTransactionLocally]
    can only stop before submitting for one of three reasons:
    [KeyPair.fromString] threw; or one of the actions has a [gas] or
    [deposit] that [BigInt] refuses, and the error is [SyntaxError]; or one
    of the actions has [args] [null], on which [functionCall] throws, and
    the error is [TypeError]. *)
Theorem local_failure_causes (lib : NearJs) (w : World) (tx : SignAndSendTransactionParams)
    (e : JsError) :
  verdict w tx = Return true ->
  local_request lib (localStorage w !! STORAGE_KEY) tx = Throw e ->
  (exists privateKey, KeyPair_fromString lib privateKey = Throw e)
  \/ (e = SyntaxError /\ exists p, In (FunctionCall p) (actions tx) /\ bad_amount p)
  \/ (e = TypeError /\ exists p, In (FunctionCall p) (actions tx) /\ args p = JNull).
Proof.
  intros Hv. destruct (verdict_true_object w tx Hv) as (c & text & ms & Hitem & Hparse & Hacts).
  rewrite Hitem. unfold local_request, parse_item. rewrite Hparse. cbn [cbind get_prop].
  destruct (KeyPair_fromString lib _) as [kp|e'] eqn:Hk; cbn [cbind].
  - destruct (map_actions (actions tx)) as [acts|e'] eqn:Hm; cbn [cbind]; [discriminate|].
    intros [= ->].
    destruct (map_actions_throws _ _ Hm) as [H|[H|(a & Hin & Hno & _)]];
      [right; left; exact H | right; right; exact H |].
    exfalso. apply check_actions_true in Hacts.
    apply Hno. exact (proj1 (List.Forall_forall _ _) Hacts a Hin).
  - intros [= ->]. left. eauto.
Qed.

Lemma local_failure_causes_witness :
  verdict app_world null_args_request = Return true
  /\ ((exists privateKey, KeyPair_fromString example_lib privateKey = Throw TypeError)
      \/ (TypeError = SyntaxError
          /\ exists p, In (FunctionCall p) (actions null_args_request) /\ bad_amount p)
      \/ (TypeError = TypeError
          /\ exists p, In (FunctionCall p) (actions null_args_request) /\ args p = JNull)).
Proof.
  split; [vm_compute; reflexivity|].
  apply (local_failure_causes example_lib app_world null_args_request TypeError);
    vm_compute; reflexivity.
Defined.

(** ** The storage the plugin shares *)

Lemma signTransactionLocally_storage lib tx w :
  localStorage (fst (signTransactionLocally lib tx w)) = localStorage w.
Proof.
  rewrite signTransactionLocally_run.
  destruct (local_request lib _ tx); reflexivity.
Qed.

(** X8: the signing hooks never write to [localStorage]: if the fallback
    leaves the storage as it is, so do [signAndSendTransaction] and
    [signAndSendTransactions], whatever the outcome, and the answer of
    [shouldUseAccessKey] to any request is the same afterwards. *)
Theorem signing_leaves_storage (lib : NearJs) (w : World)
    (tx : SignAndSendTransactionParams) (next : M FinalExecutionOutcome)
    (txs : list SignAndSendTransactionParams) (next_batch : M (list FinalExecutionOutcome)) :
  (forall u, localStorage (fst (next u)) = localStorage u) ->
  (forall u, localStorage (fst (next_batch u)) = localStorage u) ->
  let after := fst (signAndSendTransaction lib tx next w) in
  let after_batch := fst (signAndSendTransactions lib {| transactions := txs |} next_batch w) in
  localStorage after = localStorage w
  /\ localStorage after_batch = localStorage w
  /\ forall request, verdict after request = verdict w request
                     /\ verdict after_batch request = verdict w request.
Proof.
  intros Hnext Hbatch. cbv zeta.
  assert (H1 : localStorage (fst (signAndSendTransaction lib tx next w)) = localStorage w).
  { unfold signAndSendTransaction, bind.
    destruct (shouldUseAccessKey_reads tx w) as (reads & _ & ->).
    destruct (verdict w tx) as [[]|e].
    - rewrite signTransactionLocally_storage. reflexivity.
    - rewrite Hnext. reflexivity.
    - reflexivity. }
  assert (H2 : localStorage (fst (signAndSendTransactions lib {| transactions := txs |}
                                    next_batch w)) = localStorage w).
  { unfold signAndSendTransactions, bind. cbn [transactions].
    destruct (every_reads txs w) as (reads & _ & E).
    rewrite (surjective_run (every shouldUseAccessKey txs) w), E.
    destruct (snd (every shouldUseAccessKey txs w)) as [[]|e].
    - destruct (sign_each lib txs [] (emits reads w)) as [w' r] eqn:Hrun.
      apply sign_each_trace in Hrun as [Hst _]. exact Hst.
    - rewrite Hbatch. reflexivity.
    - reflexivity. }
  split; [exact H1|]. split; [exact H2|].
  intros request. split; apply verdict_storage; [rewrite H1 | rewrite H2]; reflexivity.
Qed.

Lemma signing_leaves_storage_witness :
  let after := fst (signAndSendTransaction example_lib vote_request example_next app_world) in
  let after_batch :=
    fst (signAndSendTransactions example_lib {| transactions := example_batch |}
           example_next_batch app_world) in
  localStorage after = localStorage app_world
  /\ localStorage after_batch = localStorage app_world
  /\ forall request, verdict after request = verdict app_world request
                     /\ verdict after_batch request = verdict app_world request.
Proof.
  apply (signing_leaves_storage example_lib app_world vote_request example_next example_batch
           example_next_batch); intros u; reflexivity.
Defined.

(** X9: [createAccessKey] and [signOut] leave every [localStorage] entry
    other than the plugin's own key as it was; [signOut] empties the
    plugin's slot before it calls [next], and called without [next] it has
    emptied the slot when it rejects with [TypeError]. *)
Theorem plugin_touches_only_its_key (lib : NearJs) (params : CreateAccessKeyParams)
    (next : option (M unit)) (w : World) (k : list N) :
  k <> STORAGE_KEY ->
  localStorage (fst (createAccessKey lib params w)) !! k = localStorage w !! k
  /\ match next with
     | Some fallback =>
         exists cleared, signOut next w = fallback cleared
           /\ localStorage cleared !! STORAGE_KEY = None
           /\ localStorage cleared !! k = localStorage w !! k
     | None =>
         snd (signOut next w) = Throw TypeError
         /\ localStorage (fst (signOut next w)) !! STORAGE_KEY = None
         /\ localStorage (fst (signOut next w)) !! k = localStorage w !! k
     end.
Proof.
  intros Hk. split.
  - rewrite createAccessKey_run.
    destruct (getAccounts (wallet params) (log w)) as [accounts|e]; [|reflexivity].
    cbv zeta. destruct (wallet_signAndSendTransaction _ _ _) as [result|e]; [|reflexivity].
    cbn [fst localStorage]. apply lookup_insert_ne. congruence.
  - destruct next as [fallback|].
    + eexists. split; [reflexivity|]. cbn [emit localStorage]. split.
      * apply lookup_delete_eq.
      * apply lookup_delete_ne. congruence.
    + cbn. split; [reflexivity|]. split.
      * apply lookup_delete_eq.
      * apply lookup_delete_ne. congruence.
Qed.

Lemma plugin_touches_only_its_key_witness :
  let w := {| localStorage := {[ str "theme" := str "dark" ]}; log := [] |} in
  localStorage (fst (createAccessKey example_lib (example_params example_wallet None) w))
    !! str "theme" = Some (str "dark")
  /\ snd (signOut None w) = Throw TypeError
  /\ localStorage (fst (signOut None w)) !! STORAGE_KEY = None
  /\ localStorage (fst (signOut None w)) !! str "theme" = Some (str "dark").
Proof.
  cbv zeta.
  pose proof (plugin_touches_only_its_key example_lib (example_params example_wallet None) None
                {| localStorage := {[ str "theme" := str "dark" ]}; log := [] |}
                (str "theme")) as H.
  destruct H as (H1 & H2 & H3 & H4); [vm_compute; discriminate|].
  rewrite H1, H4. repeat split; try assumption; vm_compute; reflexivity.
Defined.

(** ** Issuing, then signing *)

(** X10: [createAccessKey] rejects only with a rejection of the wallet,
    and a rejected call has not written to the storage. Either
    [wallet.getAccounts()] rejected, and then nothing else happened: no key
    pair was generated, nothing was logged, the wallet was not asked to
    sign; or the wallet rejected the [AddKey] transaction, after which
    nothing happened. *)
Theorem createAccessKey_rejection (lib : NearJs) (params : CreateAccessKeyParams)
    (w w' : World) (e : JsError) :
  createAccessKey lib params w = (w', Throw e) ->
  localStorage w' = localStorage w
  /\ ((getAccounts (wallet params) (log w) = Throw e
       /\ events_since w w' = [EvGetAccounts (Throw e)])
      \/ exists accounts keyPair request,
           getAccounts (wallet params) (log w) = Return accounts
           /\ events_since w w'
              = [EvGetAccounts (Return accounts); EvConsoleLog (manifest_id (wallet params));
                 EvFromRandom keyPair; EvWalletSignAndSend request (Throw e)]).
Proof.
  rewrite createAccessKey_run.
  destruct (getAccounts (wallet params) (log w)) as [accounts|e0] eqn:Hacc.
  - cbv zeta. destruct (wallet_signAndSendTransaction _ _ _) as [result|e0]; [discriminate|].
    intros [= <- <-]. split; [reflexivity|]. right.
    eexists accounts, _, _. split; [reflexivity|]. rewrite events_since_emits. reflexivity.
  - intros [= <- <-]. split; [reflexivity|]. left.
    split; [reflexivity|]. apply events_since_emits.
Qed.

Lemma createAccessKey_rejection_witness :
  let run := createAccessKey example_lib (example_params locked_wallet None) app_world in
  snd run = Throw (Rejected (str "locked"))
  /\ localStorage (fst run) = localStorage app_world
  /\ ((getAccounts locked_wallet [] = Throw (Rejected (str "locked"))
       /\ events_since app_world (fst run) = [EvGetAccounts (Throw (Rejected (str "locked")))])
      \/ exists accounts keyPair request,
           getAccounts locked_wallet [] = Return accounts
           /\ events_since app_world (fst run)
              = [EvGetAccounts (Return accounts); EvConsoleLog (str "wallet");
                 EvFromRandom keyPair;
                 EvWalletSignAndSend request (Throw (Rejected (str "locked")))]).
Proof.
  cbv zeta. split; [vm_compute; reflexivity|].
  apply (createAccessKey_rejection example_lib (example_params locked_wallet None) app_world).
  vm_compute. reflexivity.
Defined.

(** X11: after a successful [createAccessKey], what [signTransactionLocally]
    builds for any request is signed with the string of the key pair
    generated during that call, for the first account the wallet listed. *)
Theorem createAccessKey_then_sign (lib : NearJs) (params : CreateAccessKeyParams)
    (w w' : World) (result : FinalExecutionOutcome) :
  createAccessKey lib params w = (w', Return result) ->
  exists issued accounts,
    In (EvFromRandom issued) (events_since w w')
    /\ In (EvGetAccounts (Return accounts)) (events_since w w')
    /\ forall tx,
         local_request lib (localStorage w' !! STORAGE_KEY) tx =
         cbind (KeyPair_fromString lib (Some (JString (KeyPair_toString issued)))) (fun keyPair =>
         cbind (map_actions (actions tx)) (fun acts =>
         Return {| local_rpcUrl := rpcUrl_of (network tx);
                   local_accountId := JString <$> first_accountId accounts;
                   local_keyPair := keyPair; local_receiverId := receiverId tx;
                   local_actions := acts |})).
Proof.
  rewrite createAccessKey_run.
  destruct (getAccounts (wallet params) (log w)) as [accounts|e0]; [|discriminate].
  cbv zeta. destruct (wallet_signAndSendTransaction _ _ _) as [result'|e0]; [|discriminate].
  intros [= <- <-]. set (issued := KeyPair_fromRandom lib _).
  exists issued, accounts. unfold events_since. cbn [log]. rewrite drop_app_length.
  split; [cbn; auto|]. split; [cbn; auto|]. intros tx.
  cbn [localStorage]. rewrite lookup_insert_eq.
  unfold local_request, parse_item. rewrite stored_text_parses. cbn [cbind].
  pose proof (access_key_record_fields (first_accountId accounts) (KeyPair_toString issued)
                (contractId params) (methodNames params)
                (or_default (allowance params) DEFAULT_ALLOWANCE)) as (Ha & Hpk & _).
  rewrite Hpk, Ha. reflexivity.
Qed.

Lemma createAccessKey_then_sign_witness :
  let w' := fst (createAccessKey example_lib (example_params example_wallet None) empty_world) in
  exists issued accounts,
    In (EvFromRandom issued) (events_since empty_world w')
    /\ In (EvGetAccounts (Return accounts)) (events_since empty_world w')
    /\ forall tx,
         local_request example_lib (localStorage w' !! STORAGE_KEY) tx =
         cbind (KeyPair_fromString example_lib (Some (JString (KeyPair_toString issued))))
           (fun keyPair =>
         cbind (map_actions (actions tx)) (fun acts =>
         Return {| local_rpcUrl := rpcUrl_of (network tx);
                   local_accountId := JString <$> first_accountId accounts;
                   local_keyPair := keyPair; local_receiverId := receiverId tx;
                   local_actions := acts |})).
Proof.
  cbv zeta.
  apply (createAccessKey_then_sign example_lib (example_params example_wallet None)
           empty_world _ JNull).
  vm_compute. reflexivity.
Defined.

(** X12: a credential issued with an empty [methodNames] authorizes no
    request that has an action: the check returns [false] and
    [signAndSendTransaction] is the fallback. *)
Theorem createAccessKey_empty_methodNames (lib : NearJs) (params : CreateAccessKeyParams)
    (w w' : World) (result : FinalExecutionOutcome) (tx : SignAndSendTransactionParams) :
  createAccessKey lib params w = (w', Return result) ->
  methodNames params = Some [] ->
  actions tx <> [] ->
  verdict w' tx = Return false
  /\ forall next, signAndSendTransaction lib tx next w'
                  = next (emits [EvGetItem STORAGE_KEY; EvGetItem STORAGE_KEY] w').
Proof.
  intros Hrun Hnone Hacts.
  apply createAccessKey_stored in Hrun as (owner & keyPair & Hitem).
  assert (Hv : verdict w' tx = Return false).
  { rewrite (verdict_of_stored _ _ _ _ _ Hitem).
    destruct (string_eqb _ _); [|reflexivity].
    destruct (actions tx) as [|a rest]; [contradiction|]. cbn [check_actions].
    destruct a as [p| |]; try reflexivity.
    pose proof (access_key_record_fields owner (KeyPair_toString keyPair) (contractId params)
                  (methodNames params) (or_default (allowance params) DEFAULT_ALLOWANCE))
      as (_ & _ & _ & Hm & _).
    rewrite Hm, Hnone. reflexivity. }
  split; [assumption|]. intros next. unfold signAndSendTransaction, bind.
  pose proof (shouldUseAccessKey_run tx w') as Hr. rewrite Hitem in Hr.
  unfold verdict in Hv. rewrite Hr in *.
  destruct (stored_text owner keyPair params) as [|c text] eqn:E.
  - pose proof (stored_text_parses owner keyPair params) as Hp. rewrite E in Hp. discriminate.
  - cbn [snd] in Hv. rewrite Hv. reflexivity.
Qed.

Lemma createAccessKey_empty_methodNames_witness :
  let params :=
    {| wallet := example_wallet; contractId := str "app.near"; methodNames := Some [];
       allowance := None |} in
  let w' := fst (createAccessKey example_lib params empty_world) in
  verdict w' vote_request = Return false
  /\ forall next, signAndSendTransaction example_lib vote_request next w'
                  = next (emits [EvGetItem STORAGE_KEY; EvGetItem STORAGE_KEY] w').
Proof.
  cbv zeta.
  apply (createAccessKey_empty_methodNames example_lib
           {| wallet := example_wallet; contractId := str "app.near"; methodNames := Some [];
              allowance := None |}
           empty_world _ JNull vote_request);
    [vm_compute; reflexivity | reflexivity | discriminate].
Defined.

(** ** Stored data that is not what [createAccessKey] writes *)

(** X13: when the stored text is valid JSON but not a record for the
    request's contract: the text [null] makes [shouldUseAccessKey] throw
    [TypeError]; any other value that is not an object, and any object whose
    [contractId] is not the request's [receiverId], makes it return
    [false]. *)
Theorem stored_value_not_a_record (w : World) (text : list N) (v : json)
    (tx : SignAndSendTransactionParams) :
  localStorage w !! STORAGE_KEY = Some text ->
  JSON_parse text = Return v ->
  match v with
  | JNull => verdict w tx = Throw TypeError
  | JObject ms =>
      lookup_member (str "contractId") ms <> Some (JString (receiverId tx)) ->
      verdict w tx = Return false
  | _ => verdict w tx = Return false
  end.
Proof.
  intros Hitem Hparse. unfold verdict. rewrite shouldUseAccessKey_run, Hitem.
  destruct text as [|c text]; [discriminate|]. cbn [snd]. unfold check_key. rewrite Hparse.
  cbn [cbind]. destruct v as [| | | | |ms]; try reflexivity.
  intros Hc. cbn [get_prop cbind].
  destruct (lookup_member (str "contractId") ms) as [[| | |s| |]|]; try reflexivity.
  cbn [strict_equal_string]. destruct (string_eqb (receiverId tx) s) eqn:E; [|reflexivity].
  apply string_eqb_eq in E. subst. contradiction.
Qed.

Lemma stored_value_not_a_record_witness :
  verdict (world_storing JNull) vote_request = Throw TypeError
  /\ verdict (world_storing (JArray [])) vote_request = Return false.
Proof.
  split.
  - apply (stored_value_not_a_record (world_storing JNull) (JSON_stringify JNull) JNull
             vote_request); vm_compute; reflexivity.
  - apply (stored_value_not_a_record (world_storing (JArray [])) (JSON_stringify (JArray []))
             (JArray []) vote_request); vm_compute; reflexivity.
Defined.

Lemma is_prefix_app p s : is_prefix p (p ++ s) = true.
Proof. induction p as [|x p IH]; [destruct s; reflexivity|]. cbn. rewrite N.eqb_refl. exact IH. Qed.

Lemma string_includes_infix a m b : string_includes (a ++ m ++ b) m = true.
Proof.
  induction a as [|x a IH].
  - cbn [app]. pose proof (is_prefix_app m b) as H.
    destruct (m ++ b); cbn [string_includes]; rewrite H; reflexivity.
  - cbn [app string_includes]. rewrite IH. apply orb_true_r.
Qed.

(** X14: [includes] is also a method of strings: if the stored
    [allowedMethods] is a string, a call is authorized as soon as its
    [methodName] occurs anywhere in that string. *)
Theorem allowedMethods_string_substring (w : World) (text : list N)
    (ms : list (list N * json)) (allowed before method after : list N)
    (network' : option (list N)) (p : FunctionCallParams) :
  localStorage w !! STORAGE_KEY = Some text ->
  JSON_parse text = Return (JObject ms) ->
  lookup_member (str "allowedMethods") ms = Some (JString allowed) ->
  allowed = before ++ method ++ after ->
  methodName p = Some method ->
  forall contract,
    lookup_member (str "contractId") ms = Some (JString contract) ->
    verdict w {| network := network'; receiverId := contract; actions := [FunctionCall p] |}
    = Return true.
Proof.
  intros Hitem Hparse Hallowed -> Hm contract Hc.
  unfold verdict. rewrite shouldUseAccessKey_run, Hitem.
  destruct text as [|c text]; [discriminate|]. cbn [snd]. unfold check_key. rewrite Hparse.
  cbn [cbind get_prop receiverId actions]. rewrite Hc. cbn [strict_equal_string].
  rewrite string_eqb_refl. cbn [negb check_actions get_prop cbind]. rewrite Hallowed, Hm.
  cbn [includes ToString cbind]. rewrite string_includes_infix. reflexivity.
Qed.

Lemma allowedMethods_string_substring_witness :
  verdict (world_storing string_scope_record) vote_request = Return true.
Proof.
  apply (allowedMethods_string_substring (world_storing string_scope_record)
           (JSON_stringify string_scope_record)
           [(str "contractId", JString (str "app.near"));
            (str "allowedMethods", JString (str "devote,comment"))]
           (str "devote,comment") (str "de") (str "vote") (str ",comment") None
           {| methodName := Some (str "vote"); args := JObject []; gas := None; deposit := None |});
    vm_compute; reflexivity.
Defined.

(** X15: a request without actions addressed to the stored [contractId] is
    authorized whatever [allowedMethods] is, and the transaction built for
    it has no action. *)
Theorem no_action_is_authorized (lib : NearJs) (w : World) (text : list N)
    (ms : list (list N * json)) (tx : SignAndSendTransactionParams) :
  localStorage w !! STORAGE_KEY = Some text ->
  JSON_parse text = Return (JObject ms) ->
  lookup_member (str "contractId") ms = Some (JString (receiverId tx)) ->
  actions tx = [] ->
  verdict w tx = Return true
  /\ forall request,
       local_request lib (localStorage w !! STORAGE_KEY) tx = Return request ->
       local_actions request = [].
Proof.
  intros Hitem Hparse Hc Hacts. split.
  - unfold verdict. rewrite shouldUseAccessKey_run, Hitem.
    destruct text as [|c text]; [discriminate|]. cbn [snd]. unfold check_key. rewrite Hparse.
    cbn [cbind get_prop]. rewrite Hc. cbn [strict_equal_string]. rewrite string_eqb_refl.
    cbn [negb]. rewrite Hacts. reflexivity.
  - intros request. rewrite Hitem. unfold local_request, parse_item. rewrite Hparse.
    cbn [cbind get_prop]. destruct (KeyPair_fromString lib _); cbn [cbind]; [|discriminate].
    rewrite Hacts. cbn [map_actions cbind]. intros [= <-]. reflexivity.
Qed.

Lemma no_action_is_authorized_witness :
  let tx := {| network := None; receiverId := str "app.near"; actions := [] |} in
  verdict app_world tx = Return true
  /\ forall request,
       local_request example_lib (localStorage app_world !! STORAGE_KEY) tx = Return request ->
       local_actions request = [].
Proof.
  cbv zeta.
  apply (no_action_is_authorized example_lib app_world example_text
           [(str "accountId", JString (str "alice.near"));
            (str "privateKey", JString (str "ed25519:SECRET"));
            (str "contractId", JString (str "app.near"));
            (str "allowedMethods", JArray [JString (str "vote")]);
            (str "allowance", JString DEFAULT_ALLOWANCE)]
           {| network := None; receiverId := str "app.near"; actions := [] |});
    vm_compute; reflexivity.
Defined.
